(** * rust-grad: a reverse-mode automatic-differentiation tape

    Shallow embedding of [src/src/tensor.rs], [src/src/functions.rs] and
    [src/src/graph.rs].

    Modelling choices:
    - [f32] elements are idealised as real numbers [R];
    - a panic of the Rust code ([unwrap], [expect], [assert_eq!], an
      out-of-range [nodes[i]], a [RefCell] borrow conflict, an ndarray
      shape panic) is an [Err] of the [res] monad below;
    - the [Raw] pointers of the source are modelled by the values they point
      to.  The only in-place write through a [Raw] is the gradient
      accumulation [*grad.data = grad + w] of [Tensor::backward]; the cell
      written there is the gradient cell of a dependency [d <> i], created by
      [Raw::new] (seed or copy) and never shared with the partials [ctx] of
      node [i] nor with any value cell, so a value model computes the same
      numbers;
    - the trait objects of [Function] are a closed variant (the catalog of
      [functions.rs]); the trait [TensorType] is a type class with the
      [Array<f32, IxDyn>] backend as instance;
    - ndarray's elementwise operators are modelled on equal shapes (any other
      pair of shapes is a [ShapeError]); broadcasting is not modelled. *)

From Stdlib Require Import List Arith Lia ZArith Reals Lra.
Import ListNotations.

(** ** Failures *)

Inductive error :=
  | UsageError        (** [Option::unwrap] / [expect] on [None] *)
  | ShapeError        (** an ndarray shape panic *)
  | IndexOutOfBounds  (** [v[i]] out of range *)
  | BorrowError       (** conflicting [RefCell] borrows *)
  | AssertionFailed.  (** [assert_eq!] *)

Inductive res (A : Type) : Type :=
  | Ok (a : A)
  | Err (e : error).
Arguments Ok {A} a.
Arguments Err {A} e.

Definition bind {A B : Type} (m : res A) (k : A -> res B) : res B :=
  match m with
  | Ok a => k a
  | Err e => Err e
  end.

Notation "'let*' x ':=' m 'in' k" := (bind m (fun x => k))
  (at level 200, x name, m at level 100, k at level 200).

Definition unwrap {A : Type} (o : option A) : res A :=
  match o with
  | Some a => Ok a
  | None => Err UsageError
  end.

(** [v[i]] on a Rust [Vec] *)
Definition nth_res {A : Type} (l : list A) (i : nat) : res A :=
  match nth_error l i with
  | Some a => Ok a
  | None => Err IndexOutOfBounds
  end.

(** [v[i] = x] on a valid index; the list is unchanged out of range *)
Fixpoint upd {A : Type} (l : list A) (i : nat) (x : A) : list A :=
  match l, i with
  | [], _ => []
  | _ :: l', 0 => x :: l'
  | y :: l', S i' => y :: upd l' i' x
  end.

(** ** Dense arrays [Array<f32, IxDyn>] (row-major) *)

Record ArrayD := mkArray { shape : list nat; data : list R }.

Definition prod (s : list nat) : nat := fold_right Nat.mul 1 s.

Fixpoint shape_eqb (s s' : list nat) : bool :=
  match s, s' with
  | [], [] => true
  | x :: s, y :: s' => Nat.eqb x y && shape_eqb s s'
  | _, _ => false
  end.

Fixpoint map2 (f : R -> R -> R) (l l' : list R) : list R :=
  match l, l' with
  | x :: l, y :: l' => f x y :: map2 f l l'
  | _, _ => []
  end.

(** [&a op &b] elementwise *)
Definition zip_with (f : R -> R -> R) (a b : ArrayD) : res ArrayD :=
  if shape_eqb (shape a) (shape b)
  then Ok (mkArray (shape a) (map2 f (data a) (data b)))
  else Err ShapeError.

Definition sum_to (k : nat) (f : nat -> R) : R :=
  fold_right Rplus 0%R (map f (seq 0 k)).

(** [x.dot(&y)] for [x : m x k] and [y : k x n] *)
Definition dot_data (m k n : nat) (dx dy : list R) : list R :=
  flat_map (fun i =>
    map (fun j => sum_to k (fun l => (nth (i * k + l) dx 0 * nth (l * n + j) dy 0)%R))
        (seq 0 n))
    (seq 0 m).

(** [into_dimensionality::<Ix2>().expect(..)] on both sides, then [dot] *)
Definition array_matmul (a b : ArrayD) : res ArrayD :=
  match shape a, shape b with
  | [m; k], [k'; n] =>
      if Nat.eqb k k' then Ok (mkArray [m; n] (dot_data m k n (data a) (data b)))
      else Err ShapeError
  | _, _ => Err ShapeError
  end.

(** row-major multi-index of a flat position *)
Fixpoint unravel (s : list nat) (p : nat) : list nat :=
  match s with
  | [] => []
  | _ :: s' => (p / prod s') :: unravel s' (p mod prod s')
  end.

Fixpoint ravel (s : list nat) (ix : list nat) : nat :=
  match s, ix with
  | _ :: s', i :: ix' => i * prod s' + ravel s' ix'
  | _, _ => 0
  end.

(** [reversed_axes] *)
Definition array_t (a : ArrayD) : ArrayD :=
  let s := shape a in
  mkArray (rev s)
    (map (fun p => nth (ravel s (rev (unravel (rev s) p))) (data a) 0%R)
         (seq 0 (prod s))).

(** [Array::eye(n)] *)
Definition eye (n : nat) : ArrayD :=
  mkArray [n; n]
    (flat_map (fun i => map (fun j => if Nat.eqb i j then 1%R else 0%R) (seq 0 n))
              (seq 0 n)).

(** ** The tensor-capability trait [TensorType] *)

Class TensorType (T : Type) := {
  get_value_cpu : T -> ArrayD;
  add : T -> T -> res T;
  sub : T -> T -> res T;
  mul : T -> T -> res T;
  div : T -> T -> res T;
  matmul : T -> T -> res T;
  t : T -> T;
  expm : T -> T;
  val_like : T -> R -> T;
  ones_like : T -> T;
  eye_like : T -> res T
}.

#[global] Instance ArrayD_TensorType : TensorType ArrayD := {
  get_value_cpu a := a;
  add := zip_with Rplus;
  sub := zip_with Rminus;
  mul := zip_with Rmult;
  div := zip_with Rdiv;
  matmul := array_matmul;
  t := array_t;
  expm a := mkArray (shape a) (map exp (data a));
  val_like a v := mkArray (shape a) (map (fun x => (x * v)%R) (repeat 1%R (prod (shape a))));
  ones_like a := mkArray (shape a) (repeat 1%R (prod (shape a)));
  eye_like a := match shape a with
                | n :: _ => Ok (eye n)
                | [] => Err IndexOutOfBounds
                end
}.

(** ** Operation catalog ([functions.rs]) *)

Inductive OneValuedFn (T : Type) : Type :=
  | ExpM (a res : option T).

Inductive TwoValuedFn (T : Type) : Type :=
  | Add
  | Mul (x_ctx y_ctx : option T)
  | MatMul (x_ctx y_ctx : option T).

(** [Function::None | One | Two] *)
Inductive Function (T : Type) : Type :=
  | FNone
  | One (f : OneValuedFn T)
  | Two (f : TwoValuedFn T).

Arguments ExpM {T} a res.
Arguments Add {T}.
Arguments Mul {T} x_ctx y_ctx.
Arguments MatMul {T} x_ctx y_ctx.
Arguments FNone {T}.
Arguments One {T} f.
Arguments Two {T} f.

(** ** Nodes and graphs ([graph.rs]) *)

Record Node (T : Type) := mkNode {
  deps : nat * nat;
  func : Function T;
  value : option T;
  grad : option T;
  ctx : option T * option T
}.
Arguments mkNode {T} deps func value grad ctx.
Arguments deps {T} n.
Arguments func {T} n.
Arguments value {T} n.
Arguments grad {T} n.
Arguments ctx {T} n.

Definition Graph (T : Type) := list (Node T).

(** A [Tensor] handle: the graph it points to (its address) and an index. *)
Record Tensor := mkTensor { graph : nat; index : nat }.

(** All graphs alive in the program, addressed by [graph]. *)
Definition Store (T : Type) := list (Graph T).

Section Engine.
Context {T : Type} `{TensorType T}.

(** *** [OneValuedFn] / [TwoValuedFn] implementations *)

Definition one_forward (f : OneValuedFn T) (t_a : T) : res (OneValuedFn T * T) :=
  match f with
  | ExpM _ _ =>
      let* eye := eye_like t_a in
      let* t_out := mul eye (expm t_a) in
      Ok (ExpM (Some t_a) (Some t_out), t_out)
  end.

(** [|a, b| a.matmul(b).sub(&b.matmul(a))] *)
Definition commu (x y : T) : res T :=
  let* xy := matmul x y in
  let* yx := matmul y x in
  sub xy yx.

(** the loop [for o in 2..7] of [ExpM::backward] *)
Fixpoint expm_series (a : T) (os : list Z) (factorial : Z) (p_commu total : T)
  : res T :=
  match os with
  | [] => Ok total
  | o :: os' =>
      let factorial := (factorial * o)%Z in
      let factor := if Z.eqb (Z.rem o 2) 0 then (-1)%Z else 1%Z in
      let* new_commu := commu a p_commu in
      let fac_mat := val_like a (IZR (factor * factorial)) in
      let* q := div new_commu fac_mat in
      let* total := add total q in
      expm_series a os' factorial new_commu total
  end.

Definition one_backward (f : OneValuedFn T) (g : T) : res (option T * option T) :=
  match f with
  | ExpM a res =>
      let* a := unwrap a in
      let* r := unwrap res in
      let* total := expm_series a [2; 3; 4; 5; 6]%Z 1%Z g g in
      let* out := matmul r total in
      Ok (Some out, None)
  end.

Definition two_forward (f : TwoValuedFn T) (t_a t_b : T) : res (TwoValuedFn T * T) :=
  match f with
  | Add => let* c := add t_a t_b in Ok (Add, c)
  | Mul _ _ => let* c := mul t_a t_b in Ok (Mul (Some t_a) (Some t_b), c)
  | MatMul _ _ => let* c := matmul t_a t_b in Ok (MatMul (Some t_a) (Some t_b), c)
  end.

Definition two_backward (f : TwoValuedFn T) (g : T) : res (option T * option T) :=
  match f with
  | Add => Ok (Some g, Some g)
  | Mul x_ctx y_ctx =>
      let* x := unwrap x_ctx in
      let* y := unwrap y_ctx in
      let* a := mul y g in
      let* b := mul x g in
      Ok (Some a, Some b)
  | MatMul x_ctx y_ctx =>
      let* x := unwrap x_ctx in
      let xt := t x in
      let* y := unwrap y_ctx in
      let yt := t y in
      let* a := matmul g yt in
      let* b := matmul xt g in
      Ok (Some a, Some b)
  end.

(** *** Building the tape *)

Definition new_node (d : nat * nat) (f : Function T) (v : option T) : Node T :=
  mkNode d f v None (None, None).

(** [Graph::tensor] *)
Definition g_tensor (g : Graph T) (v : T) : Graph T * nat :=
  let len := length g in
  (g ++ [new_node (len, len) FNone (Some v)], len).

(** the [nodes.push(..)] of the operators of [tensor.rs] *)
Definition g_push (g : Graph T) (d : nat * nat) (f : Function T) : Graph T * nat :=
  (g ++ [new_node d f None], length g).

Definition g_add (g : Graph T) (x y : nat) := g_push g (x, y) (Two Add).
Definition g_mul (g : Graph T) (x y : nat) := g_push g (x, y) (Two (Mul None None)).
Definition g_matmul (g : Graph T) (x y : nat) := g_push g (x, y) (Two (MatMul None None)).
Definition g_expm (g : Graph T) (x : nat) := g_push g (x, x) (One (ExpM None None)).

(** *** [Tensor::forward] *)

(** [nodes[d].borrow().value.unwrap()] while [nodes[i]] is mutably borrowed *)
Definition dep_value (g : Graph T) (i d : nat) : res T :=
  if Nat.eqb d i then Err BorrowError
  else let* m := nth_res g d in unwrap (value m).

Definition set_forward (n : Node T) (f : Function T) (v : T) : Node T :=
  mkNode (deps n) f (Some v) (grad n) (ctx n).

Definition forward_node (i : nat) (g : Graph T) : res (Graph T) :=
  let* n := nth_res g i in
  match func n with
  | FNone => Ok g
  | One f =>
      let* n_l := dep_value g i (fst (deps n)) in
      let* r := one_forward f n_l in
      Ok (upd g i (set_forward n (One (fst r)) (snd r)))
  | Two f =>
      let* n_l := dep_value g i (fst (deps n)) in
      let* n_r := dep_value g i (snd (deps n)) in
      let* r := two_forward f n_l n_r in
      Ok (upd g i (set_forward n (Two (fst r)) (snd r)))
  end.

Fixpoint run (step : nat -> Graph T -> res (Graph T)) (is : list nat) (g : Graph T)
  : res (Graph T) :=
  match is with
  | [] => Ok g
  | i :: is' => let* g' := step i g in run step is' g'
  end.

(** [for i in 0..self.index + 1] *)
Definition forward (target : nat) (g : Graph T) : res (Graph T) :=
  run forward_node (seq 0 (S target)) g.

(** *** [Tensor::backward] *)

Definition set_grad (n : Node T) (gr : option T) : Node T :=
  mkNode (deps n) (func n) (value n) gr (ctx n).

Definition set_ctx (n : Node T) (c : option T * option T) : Node T :=
  mkNode (deps n) (func n) (value n) (grad n) c.

(** one iteration [j] of the inner loop: skip the self-loop, then add the
    partial [w] into the gradient of dependency [d] or initialise it *)
Definition propagate (i d : nat) (w : option T) (g : Graph T) : res (Graph T) :=
  let* nd := nth_res g d in
  if Nat.eqb d i then Ok g
  else
    match grad nd, w with
    | Some gd, Some w => let* s := add gd w in Ok (upd g d (set_grad nd (Some s)))
    | Some _, None => Ok g
    | None, Some w => Ok (upd g d (set_grad nd (Some w)))
    | None, None => Ok g
    end.

Definition backward_node (i : nat) (g : Graph T) : res (Graph T) :=
  let* n := nth_res g i in
  let* n := match func n with
            | FNone => Ok n
            | One f => let* gr := unwrap (grad n) in
                       let* c := one_backward f gr in Ok (set_ctx n c)
            | Two f => let* gr := unwrap (grad n) in
                       let* c := two_backward f gr in Ok (set_ctx n c)
            end in
  let g := upd g i n in
  let* g := propagate i (fst (deps n)) (fst (ctx n)) g in
  propagate i (snd (deps n)) (snd (ctx n)) g.

(** seed the target, then [for i in (0..len).rev()] *)
Definition backward (target : nat) (init : T) (g : Graph T) : res (Graph T) :=
  let len := length g in
  let* n := nth_res g target in
  let g := upd g target (set_grad n (Some init)) in
  run backward_node (rev (seq 0 len)) g.

(** *** [Tensor::value] / [Tensor::grad] on a graph *)

Definition node_value (g : Graph T) (i : nat) : res ArrayD :=
  let* n := nth_res g i in
  let* v := unwrap (value n) in
  Ok (get_value_cpu v).

Definition node_grad (g : Graph T) (i : nat) : res ArrayD :=
  let* n := nth_res g i in
  let* v := unwrap (grad n) in
  Ok (get_value_cpu v).

End Engine.

(** ** [Tensor] handles: a store-passing program monad

    A failing forward/backward is reported with the store as it was before
    the call (the partial writes made before a Rust panic are not kept). *)

Definition Prog (T A : Type) := Store T -> Store T * res A.

Definition ret {T A : Type} (a : A) : Prog T A := fun st => (st, Ok a).

Definition pbind {T A B : Type} (m : Prog T A) (k : A -> Prog T B) : Prog T B :=
  fun st => let (st', r) := m st in
            match r with
            | Ok a => k a st'
            | Err e => (st', Err e)
            end.

Notation "x <- m ;; k" := (pbind m (fun x => k))
  (at level 61, m at next level, right associativity).

Section Handles.
Context {T : Type} `{TensorType T}.

(** [Graph::new]: a fresh graph, returned by its address *)
Definition graph_new : Prog T nat := fun st => (st ++ [[]], Ok (length st)).

Definition with_graph {A : Type} (gid : nat) (f : Graph T -> Graph T * A) : Prog T A :=
  fun st => match nth_error st gid with
            | None => (st, Err IndexOutOfBounds)
            | Some g => let (g', a) := f g in (upd st gid g', Ok a)
            end.

Definition on_graph {A : Type} (gid : nat) (f : Graph T -> res (Graph T * A)) : Prog T A :=
  fun st => match nth_error st gid with
            | None => (st, Err IndexOutOfBounds)
            | Some g => match f g with
                        | Ok (g', a) => (upd st gid g', Ok a)
                        | Err e => (st, Err e)
                        end
            end.

Definition graph_tensor (gid : nat) (v : T) : Prog T Tensor :=
  with_graph gid (fun g => let (g', i) := g_tensor g v in (g', mkTensor gid i)).

(** [assert_eq!(self.graph as *const Graph<T>, other.graph as *const Graph<T>)] *)
Definition assert_same_graph {A : Type} (x y : Tensor) (k : Prog T A) : Prog T A :=
  if Nat.eqb (graph x) (graph y) then k else fun st => (st, Err AssertionFailed).

Definition tensor_add (x y : Tensor) : Prog T Tensor :=
  assert_same_graph x y
    (with_graph (graph x)
       (fun g => let (g', i) := g_add g (index x) (index y) in (g', mkTensor (graph x) i))).

Definition tensor_mul (x y : Tensor) : Prog T Tensor :=
  assert_same_graph x y
    (with_graph (graph x)
       (fun g => let (g', i) := g_mul g (index x) (index y) in (g', mkTensor (graph x) i))).

Definition tensor_matmul (x y : Tensor) : Prog T Tensor :=
  assert_same_graph x y
    (with_graph (graph x)
       (fun g => let (g', i) := g_matmul g (index x) (index y) in (g', mkTensor (graph x) i))).

Definition tensor_expm (x : Tensor) : Prog T Tensor :=
  with_graph (graph x)
    (fun g => let (g', i) := g_expm g (index x) in (g', mkTensor (graph x) i)).

Definition tensor_forward (x : Tensor) : Prog T unit :=
  on_graph (graph x) (fun g => let* g' := forward (index x) g in Ok (g', tt)).

Definition tensor_backward (x : Tensor) (init : T) : Prog T unit :=
  on_graph (graph x) (fun g => let* g' := backward (index x) init g in Ok (g', tt)).

Definition tensor_value (x : Tensor) : Prog T ArrayD :=
  on_graph (graph x) (fun g => let* v := node_value g (index x) in Ok (g, v)).

Definition tensor_grad (x : Tensor) : Prog T ArrayD :=
  on_graph (graph x) (fun g => let* v := node_grad g (index x) in Ok (g, v)).

End Handles.

(** ** Concrete programs over the [Array<f32, IxDyn>] backend *)

Definition vec (l : list R) : ArrayD := mkArray [length l] l.

(** End-to-end scenario A of the spec *)
Definition scenario_A : Prog ArrayD (list ArrayD) :=
  gid <- graph_new ;;
  x <- graph_tensor gid (vec [1; 2]%R) ;;
  y <- graph_tensor gid (vec [3; 4]%R) ;;
  z <- tensor_add x y ;;
  w <- tensor_add z x ;;
  _ <- tensor_forward w ;;
  zv <- tensor_value z ;;
  wv <- tensor_value w ;;
  _ <- tensor_backward w (vec [1; 1]%R) ;;
  wg <- tensor_grad w ;;
  zg <- tensor_grad z ;;
  xg <- tensor_grad x ;;
  yg <- tensor_grad y ;;
  ret [zv; wv; wg; zg; xg; yg].


(** A graph with an operation node created after the backward target:
    [z = x + x], then [w = x + x]; backward from [z]. *)
Definition backward_before_later_node : Prog ArrayD unit :=
  gid <- graph_new ;;
  x <- graph_tensor gid (vec [1]%R) ;;
  z <- tensor_add x x ;;
  _w <- tensor_add x x ;;
  _ <- tensor_forward z ;;
  tensor_backward z (vec [1]%R).

(** Scenario A, then a second backward from [w] with the same seed:
    the gradients of [w], [z], [x], [y] after the first and after the
    second call. *)
Definition scenario_A_backward_twice : Prog ArrayD (list ArrayD * list ArrayD) :=
  gid <- graph_new ;;
  x <- graph_tensor gid (vec [1; 2]%R) ;;
  y <- graph_tensor gid (vec [3; 4]%R) ;;
  z <- tensor_add x y ;;
  w <- tensor_add z x ;;
  _ <- tensor_forward w ;;
  _ <- tensor_backward w (vec [1; 1]%R) ;;
  wg1 <- tensor_grad w ;; zg1 <- tensor_grad z ;;
  xg1 <- tensor_grad x ;; yg1 <- tensor_grad y ;;
  _ <- tensor_backward w (vec [1; 1]%R) ;;
  wg2 <- tensor_grad w ;; zg2 <- tensor_grad z ;;
  xg2 <- tensor_grad x ;; yg2 <- tensor_grad y ;;
  ret ([wg1; zg1; xg1; yg1], [wg2; zg2; xg2; yg2]).

(** [x.value()] on a fresh leaf, with no forward pass *)
Definition leaf_value_without_forward : Prog ArrayD ArrayD :=
  gid <- graph_new ;;
  x <- graph_tensor gid (vec [1]%R) ;;
  tensor_value x.

(** entry [(i, j)] of a row-major matrix *)
Definition entry (a : ArrayD) (i j : nat) : R := nth (i * nth 1 (shape a) 0 + j) (data a) 0%R.

(** ** The commutator series of [ExpM::backward], as the spec writes it

    [C_0 = g]; for each order [k] of [ks], [C_k = a C_(k-1) - C_(k-1) a];
    [total = g + sum_k coef k * C_k]; result [res . total] in slot 0. *)

Definition scale (c : R) (x : ArrayD) : ArrayD := mkArray (shape x) (map (Rmult c) (data x)).

Fixpoint commutator_series (coef : nat -> R) (a : ArrayD) (ks : list nat) (prev total : ArrayD)
  : res ArrayD :=
  match ks with
  | [] => Ok total
  | k :: ks' =>
      let* c := commu a prev in
      let* total := add total (scale (coef k) c) in
      commutator_series coef a ks' c total
  end.

Definition expm_backward_series (coef : nat -> R) (a r g : ArrayD)
  : res (option ArrayD * option ArrayD) :=
  let* total := commutator_series coef a [2; 3; 4; 5; 6] g g in
  let* out := matmul r total in
  Ok (Some out, None).

(** the coefficient [(-1)^k / k!] of the spec sentence *)
Definition claimed_coef (k : nat) : R := ((-1) ^ k / INR (fact k))%R.

(** [(-1)^(k+1) / k!]: the series [sum_j (-1)^j / (j+1)! ad_a^j g] of the
    derivative of the exponential map, indexed by the order [k = j + 1] *)
Definition dexp_coef (k : nat) : R := ((-1) ^ (k + 1) / INR (fact k))%R.

(** a nilpotent [a] (its forward output [eye * exp a] is the identity) and
    an incoming gradient with a non-zero commutator *)
Definition nil_a : ArrayD := mkArray [2; 2] [0; 1; 0; 0]%R.
Definition nil_g : ArrayD := mkArray [2; 2] [0; 0; 1; 0]%R.

(** the graph of scenario A before any pass: leaves [x = [1,2]] and
    [y = [3,4]], then [z = x + y] and [w = z + x] *)
Definition graph_A : Graph ArrayD :=
  fst (g_add (fst (g_add (fst (g_tensor (fst (g_tensor [] (vec [1; 2]%R))) (vec [3; 4]%R)))
                         0 1)) 2 0).

(** ** Further programs and predicates over the engine *)

(** [x * y] on two leaves of a fresh graph: value of the product, then the
    gradients of [x] and [y] after a backward from the product with seed [s] *)
Definition mul_program (a b s : ArrayD) : Prog ArrayD (ArrayD * ArrayD * ArrayD) :=
  gid <- graph_new ;;
  x <- graph_tensor gid a ;;
  y <- graph_tensor gid b ;;
  z <- tensor_mul x y ;;
  _ <- tensor_forward z ;;
  zv <- tensor_value z ;;
  _ <- tensor_backward z s ;;
  xg <- tensor_grad x ;;
  yg <- tensor_grad y ;;
  ret (zv, xg, yg).

(** [op x x] on one leaf: the value, then the gradient of [x] after a
    backward from the result with seed [s] *)
Definition self_op_program (op : Tensor -> Tensor -> Prog ArrayD Tensor) (a s : ArrayD)
  : Prog ArrayD (ArrayD * ArrayD) :=
  gid <- graph_new ;;
  x <- graph_tensor gid a ;;
  z <- op x x ;;
  _ <- tensor_forward z ;;
  zv <- tensor_value z ;;
  _ <- tensor_backward z s ;;
  xg <- tensor_grad x ;;
  ret (zv, xg).


(** [g'] has the nodes of [g] with the same deps, operations and values
    (gradients and partials may differ) *)
Definition bw_frame {T : Type} (g g' : Graph T) : Prop :=
  length g' = length g /\
  forall j n, nth_error g j = Some n ->
    exists n', nth_error g' j = Some n' /\ deps n' = deps n /\ func n' = func n /\
               value n' = value n.

(** no operation node of [g] has [j] as a dependency *)
Definition unused {T : Type} (g : Graph T) (j : nat) : Prop :=
  forall i n, nth_error g i = Some n -> func n <> FNone ->
    fst (deps n) <> j /\ snd (deps n) <> j.


(** the graph of scenario A with one more leaf [u = [5]] that no operation uses *)
Definition graph_U : Graph ArrayD := fst (g_tensor graph_A (vec [5]%R)).

(** ** The tape invariant *)

Definition kind {T : Type} (f : Function T) : nat :=
  match f with FNone => 0 | One _ => 1 | Two _ => 2 end.

(** a leaf is its own (self-loop) dependency and holds a value; an operation
    only references earlier nodes *)
Definition node_wf {T : Type} (i : nat) (n : Node T) : Prop :=
  match func n with
  | FNone => deps n = (i, i) /\ value n <> None
  | One _ => fst (deps n) < i /\ snd (deps n) < i
  | Two _ => fst (deps n) < i /\ snd (deps n) < i
  end.

Definition wf_graph {T : Type} (g : Graph T) : Prop :=
  forall i n, nth_error g i = Some n -> node_wf i n.

(** graphs built through [Graph::new], [Graph::tensor] and the operators,
    whose operand handles point into the graph *)
Inductive built {T : Type} : Graph T -> Prop :=
  | built_new : built []
  | built_tensor g v : built g -> built (fst (g_tensor g v))
  | built_add g x y : built g -> x < length g -> y < length g -> built (fst (g_add g x y))
  | built_mul g x y : built g -> x < length g -> y < length g -> built (fst (g_mul g x y))
  | built_matmul g x y : built g -> x < length g -> y < length g ->
      built (fst (g_matmul g x y))
  | built_expm g x : built g -> x < length g -> built (fst (g_expm g x)).

(** ** Proof automation *)

(** Close an equation between computed results whose arrays hold real
    expressions: compare shapes by computation and entries with [lra]. *)
Ltac solve_arrays :=
  unfold vec in *;
  repeat match goal with
  | |- @eq (list nat) _ _ => reflexivity
  | |- @Ok _ _ = @Ok _ _ => f_equal
  | |- (_ :: _) = (_ :: _) => apply (f_equal2 cons)
  | |- mkArray _ _ = mkArray _ _ => apply (f_equal2 mkArray)
  | |- @eq (list R) [] [] => reflexivity
  | |- @eq (list ArrayD) [] [] => reflexivity
  | |- @eq R _ _ => lra
  end.

(** ** Claims *)

(** C1. End-to-end scenario A: for leaves [x = [1,2]], [y = [3,4]],
    [z = x + y], [w = z + x], forward on [w] gives [z.value = [4,6]] and
    [w.value = [5,8]]; backward from [w] with seed [[1,1]] gives
    [w.grad = [1,1]], [z.grad = [1,1]], [x.grad = [2,2]] (the contributions
    through [z] and through the edge [w = z + x] are added) and
    [y.grad = [1,1]]. *)
Theorem scenario_A_values_and_grads :
  snd (scenario_A []) =
  Ok [vec [4; 6]%R; vec [5; 8]%R; vec [1; 1]%R; vec [1; 1]%R; vec [2; 2]%R; vec [1; 1]%R].
Proof. cbn -[IZR]. solve_arrays. Qed.

(** C2. [Tensor::backward] iterates [(0..len).rev()] over the whole graph,
    not from the target down, and unwraps the gradient of every operation
    node it visits: backward from [z] fails on the later node [w] whose
    gradient is absent. *)
Theorem backward_fails_on_later_node :
  snd (backward_before_later_node []) = Err UsageError.
Proof. reflexivity. Qed.

(** C4 (counterexample). A second backward from [w] with the same seed does
    not leave the gradients as the first call left them: [z.grad] goes from
    [[1,1]] to [[2,2]]. *)
Lemma backward_twice_changes_grads :
  exists before after,
    snd (scenario_A_backward_twice []) = Ok (before, after) /\
    nth 1 before (vec []) = vec [1; 1]%R /\
    nth 1 after (vec []) = vec [2; 2]%R /\
    vec [1; 1]%R <> vec [2; 2]%R.
Proof.
  do 2 eexists. split; [cbn -[IZR]; reflexivity |].
  split; [cbn -[IZR]; solve_arrays |].
  split; [cbn -[IZR]; solve_arrays |].
  intros E. unfold vec in E. injection E; intros; lra.
Qed.

(** C4 (amended). Gradients left by a previous call are not cleared: the
    accumulation step adds a partial onto the gradient already stored at a
    dependency, so a second backward from [w] in scenario A re-seeds
    [w.grad = [1,1]] and yields [z.grad = [2,2]], [x.grad = [5,5]],
    [y.grad = [3,3]]. *)
Theorem backward_twice_accumulates :
  (forall (i d : nat) (p : ArrayD) (g : Graph ArrayD) (nd : Node ArrayD) (gd : ArrayD),
      d <> i -> nth_error g d = Some nd -> grad nd = Some gd ->
      propagate i d (Some p) g =
      (let* s := add gd p in Ok (upd g d (set_grad nd (Some s))))) /\
  snd (scenario_A_backward_twice []) =
  Ok ([vec [1; 1]%R; vec [1; 1]%R; vec [2; 2]%R; vec [1; 1]%R],
      [vec [1; 1]%R; vec [2; 2]%R; vec [5; 5]%R; vec [3; 3]%R]).
Proof.
  split.
  - intros i d p g nd gd Hdi Hnd Hgd. unfold propagate, nth_res.
    rewrite Hnd. cbn. rewrite Hgd. apply Nat.eqb_neq in Hdi. rewrite Hdi. reflexivity.
  - cbn -[IZR]. f_equal. f_equal; solve_arrays.
Qed.

(** ** Facts about the embedding *)

Section ListFacts.
Context {A : Type}.

Lemma upd_length (l : list A) i x : length (upd l i x) = length l.
Proof. revert i; induction l; intros [|i]; cbn; auto. Qed.

Lemma nth_error_upd_eq (l : list A) i x :
  i < length l -> nth_error (upd l i x) i = Some x.
Proof.
  revert i; induction l; intros [|i] Hi; cbn in *; try (apply IHl; lia); auto; lia.
Qed.

Lemma nth_error_upd_neq (l : list A) i j x :
  i <> j -> nth_error (upd l i x) j = nth_error l j.
Proof.
  revert i j; induction l; intros [|i] [|j] Hij; cbn; try (apply IHl; lia); auto; lia.
Qed.

Lemma upd_upd (l : list A) i x y : upd (upd l i x) i y = upd l i y.
Proof. revert i; induction l; intros [|i]; cbn; f_equal; auto. Qed.

Lemma upd_nth (l : list A) i x : nth_error l i = Some x -> upd l i x = l.
Proof.
  revert i; induction l; intros [|i] Hi; cbn in *; try discriminate;
    [congruence | f_equal; auto].
Qed.

Lemma upd_fixed (l : list A) j x : j < length l -> upd l j x = l -> nth_error l j = Some x.
Proof. intros Hj E. rewrite <- E. apply nth_error_upd_eq. exact Hj. Qed.

Lemma nth_res_ok (l : list A) i a : nth_res l i = Ok a <-> nth_error l i = Some a.
Proof. unfold nth_res; destruct (nth_error l i); split; congruence. Qed.

Lemma nth_error_app_last (l : list A) x : nth_error (l ++ [x]) (length l) = Some x.
Proof. rewrite nth_error_app2 by lia. rewrite Nat.sub_diag. reflexivity. Qed.

End ListFacts.

Lemma bind_ok {A B : Type} (m : res A) (k : A -> res B) b :
  bind m k = Ok b -> exists a, m = Ok a /\ k a = Ok b.
Proof. destruct m; cbn; [eauto | discriminate]. Qed.

Ltac inv_bind H :=
  let a := fresh "a" in let Ha := fresh "Ha" in
  apply bind_ok in H; destruct H as [a [Ha H]].

Lemma run_app {T : Type} (step : nat -> Graph T -> res (Graph T)) l1 l2 g :
  run step (l1 ++ l2) g = (let* g' := run step l1 g in run step l2 g').
Proof.
  revert g; induction l1 as [|i l1 IH]; intros g; cbn; auto.
  destruct (step i g); cbn; auto.
Qed.

Lemma seq_S_app s n : seq s (S n) = seq s n ++ [s + n].
Proof. rewrite seq_S. reflexivity. Qed.

Section ForwardFacts.
Context {T : Type} `{TensorType T}.

Lemma forward_node_ok (i : nat) (g g' : Graph T) :
  forward_node i g = Ok g' ->
  exists n, nth_error g i = Some n /\
    ((func n = FNone /\ g' = g) \/
     (exists f' v, func n <> FNone /\ kind f' = kind (func n) /\
                   g' = upd g i (set_forward n f' v))).
Proof.
  unfold forward_node. intros E. inv_bind E. apply nth_res_ok in Ha.
  exists a. split; [exact Ha |].
  destruct (func a) eqn:Hf.
  - left. split; [reflexivity | congruence].
  - right. inv_bind E. inv_bind E. injection E as <-.
    exists (One (fst a1)), (snd a1). repeat split; discriminate.
  - right. inv_bind E. inv_bind E. inv_bind E. injection E as <-.
    exists (Two (fst a2)), (snd a2). repeat split; discriminate.
Qed.

Lemma forward_node_length (i : nat) (g g' : Graph T) :
  forward_node i g = Ok g' -> length g' = length g.
Proof.
  intros E. destruct (forward_node_ok _ _ _ E) as [n [_ [[_ ->] | [f' [v [_ [_ ->]]]]]]];
    auto using upd_length.
Qed.

Lemma forward_node_other (i j : nat) (g g' : Graph T) :
  forward_node i g = Ok g' -> j <> i -> nth_error g' j = nth_error g j.
Proof.
  intros E Hji. destruct (forward_node_ok _ _ _ E) as [n [_ [[_ ->] | [f' [v [_ [_ ->]]]]]]];
    auto using nth_error_upd_neq.
Qed.

Lemma forward_node_wf (i : nat) (g g' : Graph T) :
  wf_graph g -> forward_node i g = Ok g' ->
  wf_graph g' /\ exists n', nth_error g' i = Some n' /\ value n' <> None.
Proof.
  intros Hwf E.
  destruct (forward_node_ok _ _ _ E) as [n [Hn [[Hf ->] | [f' [v [Hop [Hk ->]]]]]]].
  - split; [exact Hwf |]. exists n. split; [exact Hn |].
    specialize (Hwf _ _ Hn). unfold node_wf in Hwf. rewrite Hf in Hwf. tauto.
  - assert (Hi : i < length g) by (apply nth_error_Some; congruence).
    assert (Hnew : node_wf i (set_forward n f' v)).
    { specialize (Hwf _ _ Hn). unfold node_wf in *. cbn.
      destruct f', (func n); cbn in Hk; try discriminate; tauto. }
    split.
    + intros j m Hm. destruct (Nat.eq_dec j i) as [-> | Hji].
      * rewrite nth_error_upd_eq in Hm by exact Hi. injection Hm as <-. exact Hnew.
      * rewrite nth_error_upd_neq in Hm by congruence. exact (Hwf _ _ Hm).
    + exists (set_forward n f' v). split; [apply nth_error_upd_eq; exact Hi | discriminate].
Qed.

(** the state of [forward] when it reaches node [i] *)
Lemma forward_prefix (k : nat) (g gk : Graph T) :
  wf_graph g -> run forward_node (seq 0 k) g = Ok gk ->
  wf_graph gk /\ length gk = length g /\
  forall j, j < k -> exists n, nth_error gk j = Some n /\ value n <> None.
Proof.
  intros Hwf. revert gk. induction k as [|k IH]; intros gk E.
  - cbn in E. injection E as <-. repeat split; auto. intros j Hj; lia.
  - rewrite seq_S_app, run_app in E. inv_bind E. cbn in E. inv_bind E.
    injection E as <-. destruct (IH _ Ha) as [Hwf0 [Hlen0 Hval0]].
    destruct (forward_node_wf _ _ _ Hwf0 Ha0) as [Hwf1 Hnode].
    repeat split; auto.
    + rewrite (forward_node_length _ _ _ Ha0). exact Hlen0.
    + intros j Hj. destruct (Nat.eq_dec j k) as [-> | Hjk]; [exact Hnode |].
      rewrite (forward_node_other _ _ _ _ Ha0 Hjk). apply Hval0. lia.
Qed.

Lemma dep_value_upd_self (g : Graph T) (i d : nat) (m : Node T) :
  dep_value (upd g i m) i d = dep_value g i d.
Proof.
  unfold dep_value. destruct (Nat.eqb_spec d i) as [-> | Hdi]; [reflexivity |].
  unfold nth_res. rewrite nth_error_upd_neq by congruence. reflexivity.
Qed.

Lemma dep_value_upd_other (g : Graph T) (i j d : nat) (m : Node T) :
  d <> i -> dep_value (upd g i m) j d = dep_value g j d.
Proof.
  intros Hdi. unfold dep_value. unfold nth_res. rewrite nth_error_upd_neq by congruence.
  reflexivity.
Qed.

Lemma one_forward_idem (f f' : OneValuedFn T) (x o : T) :
  one_forward f x = Ok (f', o) -> one_forward f' x = Ok (f', o).
Proof.
  destruct f. cbn. intros E. inv_bind E. inv_bind E. injection E as <- <-.
  cbn. rewrite Ha. cbn. rewrite Ha0. reflexivity.
Qed.

Lemma two_forward_idem (f f' : TwoValuedFn T) (x y o : T) :
  two_forward f x y = Ok (f', o) -> two_forward f' x y = Ok (f', o).
Proof.
  destruct f; cbn; intros E; inv_bind E; injection E as <- <-; cbn; rewrite Ha; reflexivity.
Qed.

Lemma set_forward_same (n : Node T) f v :
  func n = f -> value n = Some v -> set_forward n f v = n.
Proof. destruct n; cbn; intros -> ->; reflexivity. Qed.

(** a node once computed is a fixpoint of its forward step *)
Lemma forward_node_fix (i : nat) (g g' : Graph T) :
  forward_node i g = Ok g' -> forward_node i g' = Ok g'.
Proof.
  intros E. unfold forward_node in E. inv_bind E. apply nth_res_ok in Ha.
  assert (Hi : i < length g) by (apply nth_error_Some; congruence).
  destruct (func a) as [|f|f] eqn:Hf.
  - injection E as <-. unfold forward_node. rewrite (proj2 (nth_res_ok _ _ _) Ha).
    cbn [bind]. rewrite Hf. reflexivity.
  - inv_bind E. inv_bind E. injection E as <-. destruct a1 as [f1 o].
    unfold forward_node. rewrite (proj2 (nth_res_ok _ _ _) (nth_error_upd_eq _ _ _ Hi)).
    cbn [bind func set_forward deps fst snd]. rewrite dep_value_upd_self, Ha0.
    cbn [bind]. rewrite (one_forward_idem _ _ _ _ Ha1). cbn [bind fst snd].
    rewrite upd_upd. reflexivity.
  - inv_bind E. inv_bind E. inv_bind E. injection E as <-. destruct a2 as [f1 o].
    unfold forward_node. rewrite (proj2 (nth_res_ok _ _ _) (nth_error_upd_eq _ _ _ Hi)).
    cbn [bind func set_forward deps fst snd]. rewrite !dep_value_upd_self, Ha0.
    cbn [bind]. rewrite Ha1. cbn [bind].
    rewrite (two_forward_idem _ _ _ _ _ Ha2). cbn [bind fst snd].
    rewrite upd_upd. reflexivity.
Qed.

Lemma forward_node_congr (j : nat) (g g' : Graph T) (nj : Node T) :
  nth_error g j = Some nj -> nth_error g' j = Some nj ->
  dep_value g' j (fst (deps nj)) = dep_value g j (fst (deps nj)) ->
  dep_value g' j (snd (deps nj)) = dep_value g j (snd (deps nj)) ->
  forward_node j g = Ok g -> forward_node j g' = Ok g'.
Proof.
  intros Hg Hg' H1 H2 E.
  assert (Hj : j < length g) by (apply nth_error_Some; congruence).
  unfold forward_node in E |- *.
  rewrite (proj2 (nth_res_ok _ _ _) Hg) in E. rewrite (proj2 (nth_res_ok _ _ _) Hg').
  cbn [bind] in E |- *. rewrite H1, H2.
  destruct (func nj) as [|f|f]; [reflexivity | |].
  - inv_bind E. inv_bind E. injection E as E. rewrite Ha. cbn [bind]. rewrite Ha0.
    cbn [bind]. f_equal. apply upd_fixed in E; [| exact Hj]. rewrite Hg in E.
    injection E as E. rewrite <- E. apply upd_nth. exact Hg'.
  - inv_bind E. inv_bind E. inv_bind E. injection E as E. rewrite Ha. cbn [bind].
    rewrite Ha0. cbn [bind]. rewrite Ha1. cbn [bind]. f_equal.
    apply upd_fixed in E; [| exact Hj]. rewrite Hg in E.
    injection E as E. rewrite <- E. apply upd_nth. exact Hg'.
Qed.

Lemma forward_node_keep_fix (i j : nat) (g g' : Graph T) :
  wf_graph g -> j < i -> forward_node j g = Ok g -> forward_node i g = Ok g' ->
  forward_node j g' = Ok g'.
Proof.
  intros Hwf Hji Ej Ei.
  destruct (forward_node_ok _ _ _ Ei) as [n [Hn [[_ ->] | [f' [v [_ [_ ->]]]]]]];
    [exact Ej |].
  destruct (forward_node_ok _ _ _ Ej) as [nj [Hnj _]].
  assert (Hd : fst (deps nj) < i /\ snd (deps nj) < i).
  { specialize (Hwf _ _ Hnj). unfold node_wf in Hwf.
    destruct (func nj); [destruct Hwf as [-> _]; cbn; lia | lia | lia]. }
  apply (forward_node_congr j g _ nj); auto.
  - rewrite nth_error_upd_neq by lia. exact Hnj.
  - apply dep_value_upd_other. lia.
  - apply dep_value_upd_other. lia.
Qed.

Lemma forward_prefix_fix (k : nat) (g gk : Graph T) :
  wf_graph g -> run forward_node (seq 0 k) g = Ok gk ->
  forall j, j < k -> forward_node j gk = Ok gk.
Proof.
  intros Hwf. revert gk. induction k as [|k IH]; intros gk E j Hj; [lia |].
  rewrite seq_S_app, run_app in E. inv_bind E. cbn in E. inv_bind E. injection E as <-.
  destruct (forward_prefix _ _ _ Hwf Ha) as [Hwf0 _].
  destruct (Nat.eq_dec j k) as [-> | Hjk].
  - exact (forward_node_fix _ _ _ Ha0).
  - apply (forward_node_keep_fix k j a); auto; [lia | apply IH; auto; lia].
Qed.

Lemma run_fix (l : list nat) (g : Graph T) :
  (forall j, In j l -> forward_node j g = Ok g) -> run forward_node l g = Ok g.
Proof.
  induction l as [|j l IH]; intros Hfix; cbn; [reflexivity |].
  rewrite (Hfix j (or_introl eq_refl)). cbn. apply IH. intros k Hk. apply Hfix. right. exact Hk.
Qed.

Lemma wf_snoc (g : Graph T) (nd : Node T) :
  wf_graph g -> node_wf (length g) nd -> wf_graph (g ++ [nd]).
Proof.
  intros Hwf Hnd j m Hm. destruct (Nat.lt_ge_cases j (length g)) as [Hj | Hj].
  - rewrite nth_error_app1 in Hm by exact Hj. exact (Hwf _ _ Hm).
  - rewrite nth_error_app2 in Hm by exact Hj.
    destruct (j - length g) as [|k] eqn:Ek; cbn in Hm.
    + injection Hm as <-. replace j with (length g) by lia. exact Hnd.
    + destruct k; discriminate.
Qed.

Lemma built_wf (g : Graph T) : built g -> wf_graph g.
Proof.
  induction 1 as [| g v _ IH | g x y _ IH Hx Hy | g x y _ IH Hx Hy | g x y _ IH Hx Hy
                  | g x _ IH Hx];
    cbn [fst g_tensor g_add g_mul g_matmul g_expm g_push].
  1: intros i n Hn; rewrite nth_error_nil in Hn; discriminate.
  1: apply wf_snoc; [exact IH | unfold node_wf, new_node; cbn; split; [reflexivity | discriminate]].
  all: apply wf_snoc; [exact IH | unfold node_wf, new_node; cbn; lia].
Qed.

Lemma one_backward_shape (f : OneValuedFn T) (gr : T) c :
  one_backward f gr = Ok c -> exists p, c = (Some p, None).
Proof.
  destruct f. cbn. intros E. inv_bind E. inv_bind E. inv_bind E. inv_bind E.
  injection E as <-. eauto.
Qed.

Lemma propagate_none (i d : nat) (g g' : Graph T) :
  propagate i d None g = Ok g' -> g' = g.
Proof.
  unfold propagate. intros E. inv_bind E. destruct (Nat.eqb d i); [congruence |].
  destruct (grad a); congruence.
Qed.

End ForwardFacts.

(** C6. Topological invariant: every graph built through [Graph::new],
    [Graph::tensor] and the operators [+], [*], [matmul], [expm] satisfies
    [wf_graph]: a leaf at index [i] has deps [(i, i)] (and its value), every
    operation node (binary, and unary in both slots) has deps strictly below
    its own index.  Hence creation order is a topological order: when
    [forward] (for any target) reaches an operation node [i], in the state
    [run forward_node (seq 0 i) g] it has reached, both dependency values it
    reads are present ([dep_value] succeeds). *)
Theorem built_graph_topological {T : Type} `{TensorType T} (g : Graph T) :
  built g ->
  wf_graph g /\
  forall i gi n,
    run forward_node (seq 0 i) g = Ok gi -> nth_error gi i = Some n -> func n <> FNone ->
    (exists v, dep_value gi i (fst (deps n)) = Ok v) /\
    (exists v, dep_value gi i (snd (deps n)) = Ok v).
Proof.
  intros Hb. pose proof (built_wf _ Hb) as Hwf. split; [exact Hwf |].
  intros i gi n E Hn Hop.
  destruct (forward_prefix _ _ _ Hwf E) as [Hwfi [_ Hval]].
  assert (Hd : fst (deps n) < i /\ snd (deps n) < i).
  { specialize (Hwfi _ _ Hn). unfold node_wf in Hwfi. destruct (func n); tauto. }
  assert (Hread : forall d, d < i -> exists v, dep_value gi i d = Ok v).
  { intros d Hdi. destruct (Hval d Hdi) as [m [Hm Hv]].
    unfold dep_value. destruct (Nat.eqb_spec d i) as [-> | _]; [lia |].
    rewrite (proj2 (nth_res_ok _ _ _) Hm). cbn.
    destruct (value m) as [v|]; [exists v; reflexivity | congruence]. }
  split; apply Hread; tauto.
Qed.

(** C8. Forward is idempotent and deterministic: on a graph satisfying the
    tape invariant (every graph the API builds, C6), a second [forward] to
    the same target, with no mutation in between, succeeds and leaves the
    graph exactly as the first one left it, so every value up to the target
    is identical. *)
Theorem forward_twice_same {T : Type} `{TensorType T} (g g1 : Graph T) (tg : nat) :
  wf_graph g -> forward tg g = Ok g1 -> forward tg g1 = Ok g1.
Proof.
  intros Hwf E. unfold forward in *. apply run_fix.
  intros j Hj. apply in_seq in Hj.
  apply (forward_prefix_fix (S tg) g); auto. lia.
Qed.

(** C9. Cross-graph rejection: [+], [*] and [matmul] on handles of two
    different graphs fail on the [assert_eq!] before touching any graph (the
    store is returned unchanged); on handles of one graph each appends exactly
    one node with deps [(index x, index y)] and returns a handle to the new
    index. *)
Theorem binary_ops_same_graph {T : Type} `{TensorType T} (st : Store T) (x y : Tensor) :
  (graph x <> graph y ->
     tensor_add x y st = (st, Err AssertionFailed) /\
     tensor_mul x y st = (st, Err AssertionFailed) /\
     tensor_matmul x y st = (st, Err AssertionFailed)) /\
  (forall g, graph x = graph y -> nth_error st (graph x) = Some g ->
     tensor_add x y st =
       (upd st (graph x) (g ++ [new_node (index x, index y) (Two Add) None]),
        Ok (mkTensor (graph x) (length g))) /\
     tensor_mul x y st =
       (upd st (graph x) (g ++ [new_node (index x, index y) (Two (Mul None None)) None]),
        Ok (mkTensor (graph x) (length g))) /\
     tensor_matmul x y st =
       (upd st (graph x) (g ++ [new_node (index x, index y) (Two (MatMul None None)) None]),
        Ok (mkTensor (graph x) (length g)))).
Proof.
  unfold tensor_add, tensor_mul, tensor_matmul, assert_same_graph, with_graph. split.
  - intros Hxy. apply Nat.eqb_neq in Hxy. rewrite Hxy. repeat split.
  - intros g Hxy Hg. rewrite Hxy, Nat.eqb_refl. rewrite <- Hxy, Hg. repeat split.
Qed.

(** C10. A node created by [expm] holds the input's index in both
    dependency slots (not its own index); yet backward at such a node adds
    exactly one partial into the input's gradient: [ExpM::backward] yields
    [(Some p, None)], the [None] slot is skipped, and the input's gradient
    becomes [p] (when absent) or [old + p]. *)
Theorem expm_single_contribution {T : Type} `{TensorType T} :
  (forall (g : Graph T) (x : nat), x < length g ->
     snd (g_expm g x) = length g /\ x <> length g /\
     nth_error (fst (g_expm g x)) (length g) =
       Some (new_node (x, x) (One (ExpM None None)) None)) /\
  (forall (g g' : Graph T) (i k : nat) (n : Node T) (f : OneValuedFn T) (gr : T),
     nth_error g i = Some n -> func n = One f -> deps n = (k, k) -> k <> i ->
     grad n = Some gr -> backward_node i g = Ok g' ->
     exists p nk nk',
       one_backward f gr = Ok (Some p, None) /\
       nth_error g k = Some nk /\ nth_error g' k = Some nk' /\
       (grad nk = None -> grad nk' = Some p) /\
       (forall gk, grad nk = Some gk -> exists s, add gk p = Ok s /\ grad nk' = Some s)).
Proof.
  split.
  - intros g x Hx. unfold g_expm, g_push. cbn [fst snd].
    split; [reflexivity | split; [lia | apply nth_error_app_last]].
  - intros g g' i k n f gr Hn Hf Hd Hki Hg E.
    assert (Hi : i < length g) by (apply nth_error_Some; congruence).
    unfold backward_node in E. rewrite (proj2 (nth_res_ok _ _ _) Hn) in E.
    cbn [bind] in E. rewrite Hf, Hg in E. cbn [bind unwrap] in E.
    apply bind_ok in E. destruct E as [n' [Hn' E]].
    apply bind_ok in Hn'. destruct Hn' as [c [Hc Hn']]. injection Hn' as <-.
    destruct (one_backward_shape _ _ _ Hc) as [p ->].
    cbn [set_ctx deps ctx fst snd] in E. rewrite Hd in E. cbn [fst snd] in E.
    apply bind_ok in E. destruct E as [g2 [Hg2 E]]. apply propagate_none in E. subst g'.
    unfold propagate in Hg2. apply bind_ok in Hg2. destruct Hg2 as [nk [Hnk Hg2]].
    apply nth_res_ok in Hnk. rewrite nth_error_upd_neq in Hnk by congruence.
    assert (Hk : k < length (upd g i (set_ctx n (Some p, None))))
      by (rewrite upd_length; apply nth_error_Some; congruence).
    apply Nat.eqb_neq in Hki. rewrite Hki in Hg2.
    exists p, nk. destruct (grad nk) as [gk|] eqn:Hgk.
    + apply bind_ok in Hg2. destruct Hg2 as [s [Hs Hg2]]. injection Hg2 as <-.
      exists (set_grad nk (Some s)). repeat split; auto.
      * apply nth_error_upd_eq. exact Hk.
      * intros; discriminate.
      * intros gk' Hgk'. injection Hgk' as <-. exists s. auto.
    + injection Hg2 as <-.
      exists (set_grad nk (Some p)). repeat split; auto.
      * apply nth_error_upd_eq. exact Hk.
      * intros gk' Hgk'. discriminate.
Qed.

Section ReadFacts.
Context {T : Type} `{TensorType T}.

Lemma new_node_unread (st : Store T) gid g d f :
  nth_error st gid = Some g ->
  snd (tensor_value (mkTensor gid (length g)) (upd st gid (g ++ [new_node d f None])))
    = Err UsageError /\
  snd (tensor_grad (mkTensor gid (length g)) (upd st gid (g ++ [new_node d f None])))
    = Err UsageError.
Proof.
  intros Hg. assert (Hgid : gid < length st) by (apply nth_error_Some; congruence).
  unfold tensor_value, tensor_grad, on_graph, node_value, node_grad, nth_res.
  cbn [graph index]. rewrite nth_error_upd_eq by exact Hgid.
  rewrite nth_error_app_last. split; reflexivity.
Qed.

End ReadFacts.

(** C7 (counterexample). [value()] on a leaf succeeds although no forward
    pass has run: the leaf holds its value from creation. *)
Lemma leaf_value_before_forward :
  snd (leaf_value_without_forward []) = Ok (vec [1]%R).
Proof. reflexivity. Qed.

(** C7 (amended). [value()] / [grad()] return the stored value / gradient
    and fail with [UsageError] (never a default) when it is absent.  A node
    created by [+], [*], [matmul] or [expm] has neither until a forward /
    backward pass writes it; a leaf holds its value from creation (so
    [value()] on a leaf succeeds without forward) and no gradient. *)
Theorem value_grad_read_guard {T : Type} `{TensorType T} :
  (forall (st : Store T) x g n,
     nth_error st (graph x) = Some g -> nth_error g (index x) = Some n ->
     tensor_value x st =
       (st, match value n with Some v => Ok (get_value_cpu v) | None => Err UsageError end) /\
     tensor_grad x st =
       (st, match grad n with Some v => Ok (get_value_cpu v) | None => Err UsageError end)) /\
  (forall (st st' : Store T) gid v x,
     graph_tensor gid v st = (st', Ok x) ->
     snd (tensor_value x st') = Ok (get_value_cpu v) /\
     snd (tensor_grad x st') = Err UsageError) /\
  (forall (st st' : Store T) x y z,
     (tensor_add x y st = (st', Ok z) \/ tensor_mul x y st = (st', Ok z) \/
      tensor_matmul x y st = (st', Ok z) \/ tensor_expm x st = (st', Ok z)) ->
     snd (tensor_value z st') = Err UsageError /\
     snd (tensor_grad z st') = Err UsageError).
Proof.
  split; [| split].
  - intros st x g n Hg Hn. unfold tensor_value, tensor_grad, on_graph, node_value, node_grad.
    rewrite Hg. rewrite (proj2 (nth_res_ok _ _ _) Hn). cbn [bind].
    split; [destruct (value n) | destruct (grad n)]; cbn; try rewrite upd_nth by exact Hg;
      reflexivity.
  - intros st st' gid v x E. unfold graph_tensor, with_graph, g_tensor in E.
    destruct (nth_error st gid) as [g|] eqn:Hg; [| discriminate].
    injection E as <- <-.
    assert (Hgid : gid < length st) by (apply nth_error_Some; congruence).
    unfold tensor_value, tensor_grad, on_graph, node_value, node_grad, nth_res.
    cbn [graph index]. rewrite nth_error_upd_eq by exact Hgid.
    rewrite nth_error_app_last. split; reflexivity.
  - intros st st' x y z E.
    unfold tensor_add, tensor_mul, tensor_matmul, tensor_expm, assert_same_graph,
      with_graph, g_add, g_mul, g_matmul, g_expm, g_push in E.
    destruct (Nat.eqb (graph x) (graph y));
    destruct (nth_error st (graph x)) as [g|] eqn:Hg;
    repeat destruct E as [E | E]; try discriminate;
    injection E as <- <-; apply new_node_unread; exact Hg.
Qed.

(** ** Array facts *)

Lemma nth_map_seq {B : Type} (f : nat -> B) s n j d :
  j < n -> nth j (map f (seq s n)) d = f (s + j).
Proof.
  revert s j; induction n as [|n IH]; intros s j Hj; [lia |].
  destruct j as [|j]; cbn; [f_equal; lia |]. rewrite IH by lia. f_equal; lia.
Qed.

Lemma nth_flat_map_seq (f : nat -> nat -> R) s m n i j :
  i < m -> j < n ->
  nth (i * n + j) (flat_map (fun i => map (f i) (seq 0 n)) (seq s m)) 0%R = f (s + i) j.
Proof.
  revert s i; induction m as [|m IH]; intros s i Hi Hj; [lia |].
  cbn [seq flat_map]. destruct i as [|i].
  - rewrite app_nth1 by (rewrite length_map, length_seq; lia).
    rewrite nth_map_seq by lia. f_equal; lia.
  - rewrite app_nth2 by (rewrite length_map, length_seq; lia).
    rewrite length_map, length_seq.
    replace (S i * n + j - n) with (i * n + j) by lia.
    rewrite IH by lia. f_equal; lia.
Qed.

Lemma sum_to_ext (k : nat) (f f' : nat -> R) :
  (forall l, l < k -> f l = f' l) -> sum_to k f = sum_to k f'.
Proof.
  intros Hf. unfold sum_to. f_equal. apply map_ext_in.
  intros l Hl. apply in_seq in Hl. apply Hf. lia.
Qed.

Lemma array_matmul_ok (a b : ArrayD) m k n :
  shape a = [m; k] -> shape b = [k; n] ->
  array_matmul a b = Ok (mkArray [m; n] (dot_data m k n (data a) (data b))).
Proof. intros Ha Hb. unfold array_matmul. rewrite Ha, Hb, Nat.eqb_refl. reflexivity. Qed.

Lemma dot_data_entry m k n dx dy i j :
  i < m -> j < n ->
  nth (i * n + j) (dot_data m k n dx dy) 0%R =
  sum_to k (fun l => (nth (i * k + l) dx 0 * nth (l * n + j) dy 0)%R).
Proof. intros Hi Hj. unfold dot_data. rewrite nth_flat_map_seq by assumption. reflexivity. Qed.

Lemma matmul_entry (a b : ArrayD) m k n i j :
  shape a = [m; k] -> shape b = [k; n] -> i < m -> j < n ->
  entry (mkArray [m; n] (dot_data m k n (data a) (data b))) i j =
  sum_to k (fun l => (entry a i l * entry b l j)%R).
Proof.
  intros Ha Hb Hi Hj. unfold entry. cbn [shape data nth]. rewrite Ha, Hb. cbn [nth].
  apply dot_data_entry; assumption.
Qed.

Lemma array_t_2 (b : ArrayD) k n :
  shape b = [k; n] ->
  shape (array_t b) = [n; k] /\
  forall j l, j < n -> l < k -> entry (array_t b) j l = entry b l j.
Proof.
  intros Hb. unfold array_t. rewrite Hb. cbn [shape rev app]. split; [reflexivity |].
  intros j l Hj Hl. unfold entry. cbn [shape data nth]. rewrite Hb. cbn [nth].
  rewrite nth_map_seq by (cbn; nia). cbn [plus].
  assert (Hq : j = (j * k + l) / (k * 1)).
  { apply (Nat.div_unique _ _ _ l); lia. }
  assert (Hr : l = (j * k + l) mod (k * 1)).
  { apply (Nat.mod_unique _ _ j); lia. }
  cbn [unravel prod fold_right rev app ravel]. rewrite <- Hq, <- Hr.
  rewrite Nat.div_1_r. f_equal. lia.
Qed.

(** C5. MatMul shape contract: forward fails with a shape error when an
    operand is not of rank 2; for [a : m x k] and [b : k x n] it returns the
    matrix product [c : m x n] with [c[i][j] = sum_l a[i][l] b[l][j]], and
    backward with incoming gradient [g : m x n] returns
    [grad_a = g . b^T] ([m x k]) in slot 0 and [grad_b = a^T . g] ([k x n])
    in slot 1. *)
Theorem matmul_contract :
  (forall (xc yc : option ArrayD) (a b : ArrayD),
     length (shape a) <> 2 \/ length (shape b) <> 2 ->
     two_forward (MatMul xc yc) a b = Err ShapeError) /\
  (forall (xc yc : option ArrayD) (a b : ArrayD) m k n,
     shape a = [m; k] -> shape b = [k; n] ->
     exists c, two_forward (MatMul xc yc) a b = Ok (MatMul (Some a) (Some b), c) /\
       shape c = [m; n] /\
       forall i j, i < m -> j < n -> entry c i j = sum_to k (fun l => (entry a i l * entry b l j)%R)) /\
  (forall (a b g : ArrayD) m k n,
     shape a = [m; k] -> shape b = [k; n] -> shape g = [m; n] ->
     exists ga gb, two_backward (MatMul (Some a) (Some b)) g = Ok (Some ga, Some gb) /\
       shape ga = [m; k] /\ shape gb = [k; n] /\
       (forall i l, i < m -> l < k ->
          entry ga i l = sum_to n (fun j => (entry g i j * entry b l j)%R)) /\
       (forall l j, l < k -> j < n ->
          entry gb l j = sum_to m (fun i => (entry a i l * entry g i j)%R))).
Proof.
  split; [| split].
  - intros xc yc a b Hr. cbn. unfold array_matmul.
    destruct (shape a) as [|m [|k [|p1 q1]]]; destruct (shape b) as [|k2 [|n2 [|p2 q2]]];
      cbn in Hr; try reflexivity; lia.
  - intros xc yc a b m k n Ha Hb. cbn. rewrite (array_matmul_ok a b m k n Ha Hb). cbn.
    eexists. split; [reflexivity |]. split; [reflexivity |].
    intros i j Hi Hj. apply matmul_entry; assumption.
  - intros a b g m k n Ha Hb Hg.
    destruct (array_t_2 b k n Hb) as [Htb Etb]. destruct (array_t_2 a m k Ha) as [Hta Eta].
    cbn -[array_t array_matmul]. rewrite (array_matmul_ok g (array_t b) m n k Hg Htb).
    cbn -[array_t array_matmul dot_data]. rewrite (array_matmul_ok (array_t a) g k m n Hta Hg).
    cbn -[array_t array_matmul dot_data].
    do 2 eexists. split; [reflexivity |]. split; [reflexivity |]. split; [reflexivity |].
    split.
    + intros i l Hi Hl. rewrite matmul_entry with (m := m) (k := n) (n := k) by assumption.
      apply sum_to_ext. intros j Hj. rewrite Etb by assumption. reflexivity.
    + intros l j Hl Hj. rewrite matmul_entry with (m := k) (k := m) (n := n) by assumption.
      apply sum_to_ext. intros i Hi. rewrite Eta by assumption. reflexivity.
Qed.

(** ** Facts for [ExpM::backward] *)

Lemma length_map2 f (l l' : list R) : length (map2 f l l') = Nat.min (length l) (length l').
Proof. revert l'; induction l; intros [|y l']; cbn; auto. Qed.

Lemma length_dot_data m k n dx dy : length (dot_data m k n dx dy) = m * n.
Proof.
  unfold dot_data. generalize 0 at 2. induction m as [|m IH]; intros s; cbn; [reflexivity |].
  rewrite length_app, length_map, length_seq, IH. lia.
Qed.

Lemma shape_eqb_refl s : shape_eqb s s = true.
Proof. induction s; cbn; [reflexivity | rewrite Nat.eqb_refl; exact IHs]. Qed.

Lemma commu_square (a p : ArrayD) n :
  shape a = [n; n] -> shape p = [n; n] ->
  exists c, commu a p = Ok c /\ shape c = [n; n] /\ length (data c) = n * n.
Proof.
  intros Ha Hp. unfold commu. cbn -[array_matmul dot_data].
  rewrite (array_matmul_ok a p n n n Ha Hp), (array_matmul_ok p a n n n Hp Ha).
  cbn -[dot_data]. unfold zip_with. cbn [shape]. rewrite shape_eqb_refl.
  eexists. split; [reflexivity |]. split; [reflexivity |].
  cbn [data]. rewrite length_map2, !length_dot_data. lia.
Qed.

Lemma add_square (x y : ArrayD) n :
  shape x = [n; n] -> shape y = [n; n] -> exists z, add x y = Ok z /\ shape z = [n; n].
Proof.
  intros Hx Hy. cbn. unfold zip_with. rewrite Hx, Hy, shape_eqb_refl.
  eexists. split; reflexivity.
Qed.

Lemma map2_div_const (l : list R) v :
  map2 Rdiv l (map (fun x => (x * v)%R) (repeat 1%R (length l))) = map (Rmult (/ v)) l.
Proof.
  induction l as [|x l IH]; cbn; [reflexivity |]. rewrite IH. f_equal.
  unfold Rdiv. rewrite Rmult_1_l. apply Rmult_comm.
Qed.

Lemma div_val_like (c a : ArrayD) v :
  shape c = shape a -> length (data c) = prod (shape a) ->
  div c (val_like a v) = Ok (scale (/ v) c).
Proof.
  intros Hs Hl. cbn. unfold zip_with. cbn [shape data]. rewrite Hs, shape_eqb_refl.
  rewrite <- Hl, map2_div_const. unfold scale. rewrite Hs. reflexivity.
Qed.

Lemma series_step (a p total : ArrayD) n (z : Z) (cf : R) :
  shape a = [n; n] -> shape p = [n; n] -> shape total = [n; n] -> (/ IZR z)%R = cf ->
  exists c total',
    commu a p = Ok c /\ shape c = [n; n] /\
    div c (val_like a (IZR z)) = Ok (scale cf c) /\
    add total (scale cf c) = Ok total' /\ shape total' = [n; n].
Proof.
  intros Ha Hp Ht Hz. destruct (commu_square a p n Ha Hp) as [c [Ec [Sc Lc]]].
  destruct (add_square total (scale cf c) n Ht Sc) as [t' [Et' St']].
  exists c, t'. repeat split; auto.
  rewrite <- Hz. apply div_val_like; [congruence | rewrite Lc, Ha; cbn; lia].
Qed.

Ltac series_step a p total n z cf :=
  let c := fresh "c" in let t' := fresh "tot" in
  let Ec := fresh "Ec" in let Sc := fresh "Sc" in let Dc := fresh "Dc" in
  let Et := fresh "Et" in let St := fresh "St" in
  destruct (series_step a p total n z cf) as [c [t' [Ec [Sc [Dc [Et St]]]]]];
  [assumption .. | unfold dexp_coef; cbn -[IZR]; field | ];
  rewrite Ec; cbn [bind];
  match goal with |- context [div c (val_like a (IZR ?e))] =>
    replace e with z by reflexivity end;
  rewrite Dc; cbn [bind]; rewrite Et; cbn [bind].

(** C3 (counterexample). With the signs [(-1)^k] of the claim the result
    differs from [ExpM::backward]: at [a = [[0,1],[0,0]]] (forward output
    [eye * exp a = I]) and [g = [[0,0],[1,0]]] the code returns
    [[[-1/2,-1/3],[1,1/2]]] where the claimed series gives
    [[[1/2,1/3],[1,-1/2]]]. *)
Lemma expm_backward_claimed_signs_fail :
  match one_forward (ExpM None None) nil_a with
  | Ok (f, r) => one_backward f nil_g <> expm_backward_series claimed_coef nil_a r nil_g
  | Err _ => False
  end.
Proof.
  cbn -[IZR exp INR fact]. rewrite exp_0. intros E. injection E. intros.
  unfold claimed_coef in *. cbn [INR fact pow Nat.mul Nat.add] in *.
  first [ clear - H; lra | clear - H0; lra | clear - H1; lra | clear - H2; lra ].
Qed.

(** C3 (amended). For square [a], [g] ([n x n]), [ExpM::forward] returns
    [eye * exp a] (elementwise, masked to the diagonal) and caches [a] and
    that output [r]; [ExpM::backward] computes [C_k = a C_(k-1) - C_(k-1) a]
    from [C_0 = g] for the orders [k = 2..6], accumulates
    [total = g + sum_k (-1)^(k+1) / k! * C_k] (negative for even [k],
    positive for odd [k]) and returns [r . total] in slot 0 and [None] in
    slot 1. *)
Theorem expm_backward_dexp_series (a r g : ArrayD) n :
  shape a = [n; n] -> shape g = [n; n] ->
  (exists out, eye_like a = Ok (eye n) /\ mul (eye n) (expm a) = Ok out /\
               one_forward (ExpM None None) a = Ok (ExpM (Some a) (Some out), out)) /\
  one_backward (ExpM (Some a) (Some r)) g = expm_backward_series dexp_coef a r g.
Proof.
  intros Ha Hg. split.
  - assert (Heye : eye_like a = Ok (eye n)) by (cbn; rewrite Ha; reflexivity).
    assert (Hmul : exists out, mul (eye n) (expm a) = Ok out).
    { cbn. unfold zip_with. cbn [shape eye]. rewrite Ha, shape_eqb_refl. eexists; reflexivity. }
    destruct Hmul as [out Hmul]. exists out. split; [exact Heye | split; [exact Hmul |]].
    unfold one_forward. rewrite Heye. cbn [bind]. rewrite Hmul. reflexivity.
  - unfold one_backward, expm_backward_series. cbn [unwrap bind].
    assert (E : expm_series a [2; 3; 4; 5; 6]%Z 1%Z g g =
                commutator_series dexp_coef a [2; 3; 4; 5; 6] g g).
    { cbn [expm_series commutator_series].
      series_step a g g n (-2)%Z (dexp_coef 2).
      series_step a c tot n 6%Z (dexp_coef 3).
      series_step a c0 tot0 n (-24)%Z (dexp_coef 4).
      series_step a c1 tot1 n 120%Z (dexp_coef 5).
      series_step a c2 tot2 n (-720)%Z (dexp_coef 6).
      reflexivity. }
    rewrite E. reflexivity.
Qed.

(** ** Instances of the theorems at concrete inputs *)

Lemma built_graph_A : built graph_A.
Proof.
  unfold graph_A. apply built_add; [| simpl; lia | simpl; lia].
  apply built_add; [| simpl; lia | simpl; lia].
  apply built_tensor. apply built_tensor. apply built_new.
Qed.

(** C6 at the graph of scenario A. *)
Lemma built_graph_topological_witness :
  built graph_A /\ wf_graph graph_A.
Proof.
  split; [exact built_graph_A |].
  exact (proj1 (built_graph_topological graph_A built_graph_A)).
Defined.

(** C8 at the graph of scenario A, forward run to [w] (index 3). *)
Lemma forward_twice_same_witness :
  exists g1, wf_graph graph_A /\ forward 3 graph_A = Ok g1 /\ forward 3 g1 = Ok g1.
Proof.
  assert (Hwf : wf_graph graph_A) by (apply built_wf; exact built_graph_A).
  eexists. split; [exact Hwf | split; [reflexivity |]].
  apply (forward_twice_same graph_A _ 3); [exact Hwf | reflexivity].
Defined.

(** C3 (amended) at [a = [[0,1],[0,0]]], [g = [[0,0],[1,0]]]. *)
Lemma expm_backward_dexp_series_witness :
  shape nil_a = [2; 2] /\ shape nil_g = [2; 2] /\
  one_backward (ExpM (Some nil_a) (Some (eye 2))) nil_g =
    expm_backward_series dexp_coef nil_a (eye 2) nil_g.
Proof.
  split; [reflexivity | split; [reflexivity |]].
  apply (proj2 (expm_backward_dexp_series nil_a (eye 2) nil_g 2 ltac:(reflexivity) ltac:(reflexivity))).
Defined.

(** ** Further properties of the engine, the backend and the handles *)

Section FwdExtra.
Context {T : Type} `{TensorType T}.

Lemma forward_node_frame (i : nat) (g g' : Graph T) :
  forward_node i g = Ok g' ->
  length g' = length g /\
  forall j n, nth_error g j = Some n ->
    exists n', nth_error g' j = Some n' /\ deps n' = deps n /\ grad n' = grad n /\
      ctx n' = ctx n /\ kind (func n') = kind (func n) /\
      (func n = FNone \/ j <> i -> n' = n).
Proof.
  intros E. split; [exact (forward_node_length _ _ _ E) |].
  intros j n Hn.
  destruct (forward_node_ok _ _ _ E) as [n0 [Hn0 [[Hf ->] | [f' [v [Hop [Hk ->]]]]]]].
  - exists n. repeat split; auto.
  - destruct (Nat.eq_dec j i) as [-> | Hji].
    + rewrite Hn0 in Hn. injection Hn as <-.
      assert (Hi : i < length g) by (apply nth_error_Some; congruence).
      exists (set_forward n0 f' v). rewrite nth_error_upd_eq by exact Hi.
      repeat split; auto. intros [Hf | Hf]; [contradiction | congruence].
    + exists n. rewrite nth_error_upd_neq by congruence. repeat split; auto.
Qed.

Lemma run_forward_frame (l : list nat) (g g' : Graph T) :
  run forward_node l g = Ok g' ->
  length g' = length g /\
  forall j n, nth_error g j = Some n ->
    exists n', nth_error g' j = Some n' /\ deps n' = deps n /\ grad n' = grad n /\
      ctx n' = ctx n /\ kind (func n') = kind (func n) /\
      (func n = FNone \/ ~ In j l -> n' = n).
Proof.
  revert g. induction l as [|i l IH]; intros g E.
  - cbn in E. injection E as <-. split; [reflexivity |].
    intros j n Hn. exists n. repeat split; auto.
  - cbn in E. inv_bind E. destruct (forward_node_frame _ _ _ Ha) as [L1 F1].
    destruct (IH _ E) as [L2 F2]. split; [congruence |].
    intros j n Hn. destruct (F1 _ _ Hn) as [n1 [Hn1 [D1 [G1 [C1 [K1 E1]]]]]].
    destruct (F2 _ _ Hn1) as [n2 [Hn2 [D2 [G2 [C2 [K2 E2]]]]]].
    exists n2. repeat split; try congruence.
    intros Hc.
    assert (Hn1n : n1 = n).
    { apply E1. destruct Hc as [Hc | Hc]; [left; exact Hc |].
      right; intros Hj; apply Hc; left; congruence. }
    subst n1. apply E2. destruct Hc as [Hc | Hc]; [left; exact Hc |].
    right; intros Hj; apply Hc; right; exact Hj.
Qed.

Lemma run_forward_in (l : list nat) (g g' : Graph T) :
  run forward_node l g = Ok g' -> forall i, In i l -> i < length g.
Proof.
  revert g. induction l as [|i l IH]; intros g E k Hk; [destruct Hk |].
  cbn in E. inv_bind E. destruct Hk as [<- | Hk].
  - unfold forward_node in Ha. inv_bind Ha. apply nth_res_ok in Ha0.
    apply nth_error_Some. congruence.
  - rewrite <- (forward_node_length _ _ _ Ha). exact (IH _ E k Hk).
Qed.

End FwdExtra.


(** A target at or past the end of the graph ([nodes[i]] out of range):
    [forward] never succeeds and [backward] fails with an index error before
    writing anything. *)
Theorem pass_past_end_fails {T : Type} `{TensorType T} (t : nat) (s : T) (g : Graph T) :
  length g <= t ->
  (forall g', forward t g <> Ok g') /\ backward t s g = Err IndexOutOfBounds.
Proof.
  intros Ht. split.
  - intros g' E. unfold forward in E.
    pose proof (run_forward_in _ _ _ E t) as Hin. rewrite in_seq in Hin. lia.
  - unfold backward, nth_res. rewrite (proj2 (nth_error_None g t) Ht). reflexivity.
Qed.

(** After a successful [forward] to [t] on a graph satisfying the tape
    invariant, every node up to [t] holds what its operation computes from the
    values its dependencies hold in the resulting graph; leaves are unchanged. *)
Theorem forward_computes_values {T : Type} `{TensorType T} (t : nat) (g g' : Graph T) :
  wf_graph g -> forward t g = Ok g' ->
  forall i n, i <= t -> nth_error g' i = Some n ->
  match func n with
  | FNone => nth_error g i = Some n
  | One f => exists vl v, dep_value g' i (fst (deps n)) = Ok vl /\ value n = Some v /\
                          one_forward f vl = Ok (f, v)
  | Two f => exists vl vr v, dep_value g' i (fst (deps n)) = Ok vl /\
                             dep_value g' i (snd (deps n)) = Ok vr /\ value n = Some v /\
                             two_forward f vl vr = Ok (f, v)
  end.
Proof.
  intros Hwf E i n Hi Hn.
  assert (Fix : forward_node i g' = Ok g').
  { unfold forward in E. apply (forward_prefix_fix (S t) g); auto. lia. }
  assert (Hlen : i < length g') by (apply nth_error_Some; congruence).
  destruct (func n) as [|f|f] eqn:Hf.
  - destruct (run_forward_frame _ _ _ E) as [L F].
    assert (Hig : i < length g) by lia.
    destruct (nth_error g i) as [n0|] eqn:Hn0; [| apply nth_error_None in Hn0; lia].
    destruct (F _ _ Hn0) as [n' [Hn' [_ [_ [_ [K Eq]]]]]].
    rewrite Hn in Hn'. injection Hn' as <-. rewrite Eq; [reflexivity |].
    left. destruct (func n0); [reflexivity | |]; rewrite Hf in K; discriminate.
  - unfold forward_node in Fix. rewrite (proj2 (nth_res_ok _ _ _) Hn) in Fix.
    cbn [bind] in Fix. rewrite Hf in Fix. inv_bind Fix. inv_bind Fix. injection Fix as Fix.
    apply upd_fixed in Fix; [| exact Hlen]. rewrite Hn in Fix. injection Fix as Fix.
    destruct a0 as [f1 v]. exists a, v. split; [exact Ha |].
    rewrite Fix in Hf. cbn in Hf. injection Hf as ->. rewrite Fix. cbn.
    split; [reflexivity | exact Ha0].
  - unfold forward_node in Fix. rewrite (proj2 (nth_res_ok _ _ _) Hn) in Fix.
    cbn [bind] in Fix. rewrite Hf in Fix. inv_bind Fix. inv_bind Fix. inv_bind Fix.
    injection Fix as Fix.
    apply upd_fixed in Fix; [| exact Hlen]. rewrite Hn in Fix. injection Fix as Fix.
    destruct a1 as [f1 v]. exists a, a0, v. split; [exact Ha | split; [exact Ha0 |]].
    rewrite Fix in Hf. cbn in Hf. injection Hf as ->. rewrite Fix. cbn.
    split; [reflexivity | exact Ha1].
Qed.

(** Forward passes compose: after [forward t], a [forward t'] with
    [t <= t'] gives the same result as [forward t'] on the original graph. *)
Theorem forward_compose {T : Type} `{TensorType T} (t t' : nat) (g g1 : Graph T) :
  wf_graph g -> t <= t' -> forward t g = Ok g1 -> forward t' g1 = forward t' g.
Proof.
  intros Hwf Htt E. unfold forward in *.
  replace (S t') with (S t + (t' - t)) by lia.
  rewrite seq_app, !run_app, E. cbn [bind].
  rewrite run_fix; [reflexivity |].
  intros j Hj. apply in_seq in Hj. apply (forward_prefix_fix (S t) g); auto. lia.
Qed.

Section BwdExtra.
Context {T : Type} `{TensorType T}.

Lemma bw_frame_refl (g : Graph T) : bw_frame g g.
Proof. split; [reflexivity |]. intros j n Hn. exists n. auto. Qed.

Lemma bw_frame_trans (g1 g2 g3 : Graph T) : bw_frame g1 g2 -> bw_frame g2 g3 -> bw_frame g1 g3.
Proof.
  intros [L1 F1] [L2 F2]. split; [congruence |]. intros j n Hn.
  destruct (F1 _ _ Hn) as [n1 [Hn1 [D1 [E1 V1]]]].
  destruct (F2 _ _ Hn1) as [n2 [Hn2 [D2 [E2 V2]]]].
  exists n2. repeat split; congruence.
Qed.

Lemma bw_frame_upd (g : Graph T) (d : nat) (nd nd' : Node T) :
  nth_error g d = Some nd -> deps nd' = deps nd -> func nd' = func nd -> value nd' = value nd ->
  bw_frame g (upd g d nd').
Proof.
  intros Hd D F V. split; [apply upd_length |]. intros j n Hn.
  destruct (Nat.eq_dec j d) as [-> | Hjd].
  - rewrite Hd in Hn. injection Hn as <-. exists nd'.
    rewrite nth_error_upd_eq by (apply nth_error_Some; congruence). auto.
  - exists n. rewrite nth_error_upd_neq by congruence. auto.
Qed.

Lemma propagate_frame (i d : nat) (w : option T) (g g' : Graph T) :
  propagate i d w g = Ok g' -> bw_frame g g'.
Proof.
  unfold propagate. intros E. inv_bind E. apply nth_res_ok in Ha.
  destruct (Nat.eqb d i); [injection E as <-; apply bw_frame_refl |].
  destruct (grad a), w; try (injection E as <-; apply bw_frame_refl).
  - inv_bind E. injection E as <-. apply (bw_frame_upd _ _ a); auto.
  - injection E as <-. apply (bw_frame_upd _ _ a); auto.
Qed.

Lemma backward_node_frame (i : nat) (g g' : Graph T) :
  backward_node i g = Ok g' -> bw_frame g g'.
Proof.
  unfold backward_node. intros E. inv_bind E. apply nth_res_ok in Ha.
  inv_bind E. inv_bind E.
  assert (Hup : bw_frame g (upd g i a0)).
  { assert (K : deps a0 = deps a /\ func a0 = func a /\ value a0 = value a).
    { destruct (func a) eqn:Hf.
      - injection Ha0 as <-. auto.
      - inv_bind Ha0. inv_bind Ha0. injection Ha0 as <-. cbn. auto.
      - inv_bind Ha0. inv_bind Ha0. injection Ha0 as <-. cbn. auto. }
    destruct K as [K1 [K2 K3]]. apply (bw_frame_upd _ _ a); auto. }
  apply (bw_frame_trans _ _ _ Hup).
  apply (bw_frame_trans _ _ _ (propagate_frame _ _ _ _ _ Ha1)).
  exact (propagate_frame _ _ _ _ _ E).
Qed.

Lemma run_backward_frame (l : list nat) (g g' : Graph T) :
  run backward_node l g = Ok g' -> bw_frame g g'.
Proof.
  revert g. induction l as [|i l IH]; intros g E; cbn in E.
  - injection E as <-. apply bw_frame_refl.
  - inv_bind E. exact (bw_frame_trans _ _ _ (backward_node_frame _ _ _ Ha) (IH _ E)).
Qed.

End BwdExtra.

(** [Tensor::backward] never changes the shape of the tape: the graph keeps
    its length and every node keeps its deps, its operation (with its cached
    operands) and its value; only gradients and partials are written. *)
Theorem backward_frame {T : Type} `{TensorType T} (t : nat) (s : T) (g g' : Graph T) :
  backward t s g = Ok g' ->
  length g' = length g /\
  forall j n, nth_error g j = Some n ->
    exists n', nth_error g' j = Some n' /\ deps n' = deps n /\ func n' = func n /\
               value n' = value n.
Proof.
  unfold backward. intros E. inv_bind E. apply nth_res_ok in Ha.
  apply (bw_frame_trans g (upd g t (set_grad a (Some s))) g').
  - apply (bw_frame_upd _ _ a); auto.
  - apply (run_backward_frame _ _ _ E).
Qed.


Lemma length_flat_map_seq {B : Type} (f : nat -> nat -> B) s m n :
  length (flat_map (fun i => map (f i) (seq 0 n)) (seq s m)) = m * n.
Proof.
  revert s; induction m as [|m IH]; intros s; cbn; [reflexivity |].
  rewrite length_app, length_map, length_seq, IH. reflexivity.
Qed.



Lemma length_array_t (a : ArrayD) : length (data (array_t a)) = prod (shape a).
Proof. unfold array_t. cbn [data]. rewrite length_map, length_seq. reflexivity. Qed.

Lemma array_eq_entries (x y : ArrayD) m n :
  shape x = [m; n] -> shape y = [m; n] ->
  length (data x) = m * n -> length (data y) = m * n ->
  (forall i j, i < m -> j < n -> entry x i j = entry y i j) -> x = y.
Proof.
  intros Sx Sy Lx Ly E. destruct x as [sx dx], y as [sy dy]. cbn in *. subst sx sy.
  f_equal. apply (nth_ext _ _ 0%R 0%R); [congruence |]. intros p Hp.
  assert (Hn : n <> 0) by (intros ->; lia).
  pose proof (Nat.div_mod p n Hn) as Hdm.
  assert (Hi : p / n < m) by (apply Nat.Div0.div_lt_upper_bound; lia).
  assert (Hj : p mod n < n) by (apply Nat.mod_upper_bound; exact Hn).
  specialize (E _ _ Hi Hj). unfold entry in E. cbn in E.
  replace (p / n * n + p mod n) with p in E by lia. exact E.
Qed.

Lemma map_nth_seq_self (l : list R) :
  map (fun p => nth p l 0%R) (seq 0 (length l)) = l.
Proof.
  apply (nth_ext _ _ 0%R 0%R); [rewrite length_map, length_seq; reflexivity |].
  intros p Hp. rewrite length_map, length_seq in Hp. rewrite nth_map_seq by exact Hp.
  reflexivity.
Qed.

(** [TensorType::t] ([reversed_axes]) on well-formed arrays: the identity on
    rank 0 and 1, an involution on matrices, and [(a . b)^T = b^T . a^T] for
    [matmul] on [m x k] and [k x n] matrices. *)
Theorem transpose_laws :
  (forall a : ArrayD, length (shape a) <= 1 -> length (data a) = prod (shape a) -> t a = a) /\
  (forall (a : ArrayD) m n, shape a = [m; n] -> length (data a) = m * n -> t (t a) = a) /\
  (forall (a b : ArrayD) m k n, shape a = [m; k] -> shape b = [k; n] ->
     exists c c', matmul a b = Ok c /\ matmul (t b) (t a) = Ok c' /\ t c = c').
Proof.
  split; [| split].
  - intros [s d] Hr Hl. cbn [shape data] in Hr, Hl. cbn. unfold array_t. cbn [shape data].
    destruct s as [|n [|? ?]]; cbn [length] in Hr; try lia.
    + cbn in Hl |- *. destruct d as [|x [|? ?]]; cbn in Hl; try lia. reflexivity.
    + cbn [rev app prod fold_right unravel ravel] in Hl |- *. f_equal.
      replace (n * 1) with (length d) by lia.
      transitivity (map (fun p => nth p d 0%R) (seq 0 (length d))); [| apply map_nth_seq_self].
      apply map_ext. intros p. rewrite Nat.div_1_r, Nat.mul_1_r, Nat.add_0_r. reflexivity.
  - intros a m n Ha Hl. cbn.
    destruct (array_t_2 a m n Ha) as [S1 E1].
    destruct (array_t_2 (array_t a) n m S1) as [S2 E2].
    apply (array_eq_entries _ _ m n S2 Ha); [rewrite length_array_t, S1; cbn; lia | exact Hl |].
    intros i j Hi Hj. rewrite E2 by assumption. apply E1; assumption.
  - intros a b m k n Ha Hb. cbn.
    destruct (array_t_2 a m k Ha) as [Sa Ea]. destruct (array_t_2 b k n Hb) as [Sb Eb].
    rewrite (array_matmul_ok a b m k n Ha Hb), (array_matmul_ok (array_t b) (array_t a) n k m Sb Sa).
    do 2 eexists. split; [reflexivity | split; [reflexivity |]].
    destruct (array_t_2 (mkArray [m; n] (dot_data m k n (data a) (data b))) m n eq_refl)
      as [Sc Ec].
    apply (array_eq_entries _ _ n m Sc).
    + reflexivity.
    + rewrite length_array_t. cbn. lia.
    + cbn [data]. unfold dot_data.
      rewrite (length_flat_map_seq (fun i j => sum_to k (fun l =>
                 (nth (i * k + l) (data (array_t b)) 0 * nth (l * m + j) (data (array_t a)) 0)%R))).
      reflexivity.
    + intros j i Hj Hi. rewrite Ec by assumption.
      rewrite (matmul_entry a b m k n) by assumption.
      rewrite (matmul_entry (array_t b) (array_t a) n k m) by assumption.
      apply sum_to_ext. intros l Hl. rewrite Eb, Ea by assumption. apply Rmult_comm.
Qed.

Lemma zip_with_same (f : R -> R -> R) (x y : ArrayD) :
  shape x = shape y -> zip_with f x y = Ok (mkArray (shape x) (map2 f (data x) (data y))).
Proof.
  intros E. unfold zip_with. rewrite E, shape_eqb_refl. reflexivity.
Qed.

(** [z = x * y] on leaves [a], [b] of equal shape, [z.forward()],
    [z.backward(s)] with [s] of that shape: [z.value() = a * b],
    [x.grad() = b * s] and [y.grad() = a * s] (elementwise). *)
Theorem mul_program_grads (a b s : ArrayD) :
  shape a = shape b -> shape b = shape s ->
  snd (mul_program a b s []) =
  Ok (mkArray (shape a) (map2 Rmult (data a) (data b)),
      mkArray (shape a) (map2 Rmult (data b) (data s)),
      mkArray (shape a) (map2 Rmult (data a) (data s))).
Proof.
  intros Hab Hbs.
  destruct a as [sa da], b as [sb db], s as [ss ds]. cbn [shape data] in *. subst sb ss.
  cbv -[Rmult Rplus shape_eqb map2]. repeat (rewrite shape_eqb_refl; cbv -[Rmult Rplus shape_eqb map2]).
  reflexivity.
Qed.

(** An operand used in both slots receives both partials: for [z = x * x],
    [x.grad() = a * s + a * s]; for [z = x + x], [x.grad() = s + s]. *)
Theorem self_operand_grads (a s : ArrayD) :
  shape a = shape s ->
  snd (self_op_program tensor_mul a s []) =
    Ok (mkArray (shape a) (map2 Rmult (data a) (data a)),
        mkArray (shape a) (map2 Rplus (map2 Rmult (data a) (data s))
                                      (map2 Rmult (data a) (data s)))) /\
  snd (self_op_program tensor_add a s []) =
    Ok (mkArray (shape a) (map2 Rplus (data a) (data a)),
        mkArray (shape a) (map2 Rplus (data s) (data s))).
Proof.
  intros Has. destruct a as [sa da], s as [ss ds]. cbn [shape data] in *. subst ss.
  split; cbv -[Rmult Rplus shape_eqb map2];
    repeat (rewrite shape_eqb_refl; cbv -[Rmult Rplus shape_eqb map2]); reflexivity.
Qed.

Section StoreExtra.
Context {T : Type} `{TensorType T}.





End StoreExtra.


Section SeedExtra.
Context {T : Type} `{TensorType T}.

Lemma propagate_other (i d j : nat) (w : option T) (g g' : Graph T) :
  propagate i d w g = Ok g' -> j <> d -> nth_error g' j = nth_error g j.
Proof.
  unfold propagate. intros E Hjd. inv_bind E.
  destruct (Nat.eqb d i); [congruence |].
  destruct (grad a), w; try congruence.
  - inv_bind E. injection E as <-. apply nth_error_upd_neq. congruence.
  - injection E as <-. apply nth_error_upd_neq. congruence.
Qed.

Lemma propagate_self (i : nat) (w : option T) (g g' : Graph T) :
  propagate i i w g = Ok g' -> g' = g.
Proof.
  unfold propagate. intros E. inv_bind E. rewrite Nat.eqb_refl in E. congruence.
Qed.

Lemma bw_frame_wf (g g' : Graph T) : wf_graph g -> bw_frame g g' -> wf_graph g'.
Proof.
  intros Hwf [L F] j n' Hn'.
  assert (Hj : j < length g) by (rewrite <- L; apply nth_error_Some; congruence).
  destruct (nth_error g j) as [n|] eqn:Hn; [| apply nth_error_None in Hn; lia].
  destruct (F _ _ Hn) as [n'' [Hn'' [D [Fn V]]]]. rewrite Hn' in Hn''. injection Hn'' as <-.
  specialize (Hwf _ _ Hn). unfold node_wf in *. rewrite Fn, D, V. exact Hwf.
Qed.

(** the gradient of the last node is never written by a step of [backward] *)
Lemma backward_node_keeps_last (i tl : nat) (g g' : Graph T) :
  wf_graph g -> S tl = length g ->
  backward_node i g = Ok g' ->
  option_map grad (nth_error g' tl) = option_map grad (nth_error g tl).
Proof.
  intros Hwf Hl E. unfold backward_node in E. inv_bind E. apply nth_res_ok in Ha.
  assert (Hi : i < length g) by (apply nth_error_Some; congruence).
  inv_bind E. inv_bind E.
  assert (K : deps a0 = deps a /\ grad a0 = grad a).
  { destruct (func a) eqn:Hf.
    - injection Ha0 as <-. auto.
    - inv_bind Ha0. inv_bind Ha0. injection Ha0 as <-. cbn. auto.
    - inv_bind Ha0. inv_bind Ha0. injection Ha0 as <-. cbn. auto. }
  destruct K as [Kd Kg].
  assert (Hd : forall d, d = fst (deps a0) \/ d = snd (deps a0) -> d = i \/ d <> tl).
  { intros d Hdd. rewrite Kd in Hdd. specialize (Hwf _ _ Ha). unfold node_wf in Hwf.
    destruct (func a).
    - destruct Hwf as [Hdep _]. rewrite Hdep in Hdd. cbn in Hdd. left; lia.
    - right; lia.
    - right; lia. }
  assert (Step : forall d w g1 g2, d = fst (deps a0) \/ d = snd (deps a0) ->
            propagate i d w g1 = Ok g2 ->
            option_map grad (nth_error g2 tl) = option_map grad (nth_error g1 tl)).
  { intros d w g1 g2 Hdd P. destruct (Hd d Hdd) as [-> | Hdt].
    - apply propagate_self in P. subst g2. reflexivity.
    - rewrite (propagate_other _ _ _ _ _ _ P) by congruence. reflexivity. }
  rewrite (Step _ _ _ _ (or_intror eq_refl) E), (Step _ _ _ _ (or_introl eq_refl) Ha1).
  destruct (Nat.eq_dec i tl) as [-> | Hit].
  - rewrite nth_error_upd_eq by exact Hi. rewrite Ha. cbn. rewrite Kg. reflexivity.
  - rewrite nth_error_upd_neq by exact Hit. reflexivity.
Qed.

Lemma run_backward_keeps_last (l : list nat) (tl : nat) (g g' : Graph T) :
  wf_graph g -> S tl = length g ->
  run backward_node l g = Ok g' ->
  option_map grad (nth_error g' tl) = option_map grad (nth_error g tl).
Proof.
  revert g. induction l as [|i l IH]; intros g Hwf Hl E; cbn in E.
  - congruence.
  - inv_bind E. pose proof (backward_node_frame _ _ _ Ha) as Fr.
    rewrite (IH a); [| exact (bw_frame_wf _ _ Hwf Fr) | destruct Fr; congruence | exact E].
    exact (backward_node_keeps_last _ _ _ _ Hwf Hl Ha).
Qed.

End SeedExtra.

(** [backward] from the last node of a graph satisfying the tape invariant
    leaves that node's gradient equal to the seed, whatever gradient it held
    before. *)
Theorem backward_last_grad_is_seed {T : Type} `{TensorType T} (tl : nat) (s : T) (g g' : Graph T) :
  wf_graph g -> S tl = length g -> backward tl s g = Ok g' ->
  node_grad g' tl = Ok (get_value_cpu s).
Proof.
  intros Hwf Hl E. unfold backward in E. inv_bind E. apply nth_res_ok in Ha.
  assert (Ht : tl < length g) by lia.
  set (g0 := upd g tl (set_grad a (Some s))) in E.
  assert (Fr : bw_frame g g0) by (apply (bw_frame_upd _ _ a); auto).
  assert (Hl0 : S tl = length g0) by (destruct Fr; congruence).
  pose proof (run_backward_keeps_last _ _ _ _ (bw_frame_wf _ _ Hwf Fr) Hl0 E) as K.
  unfold g0 in K. rewrite nth_error_upd_eq in K by exact Ht. cbn in K.
  unfold node_grad, nth_res. destruct (nth_error g' tl) as [n|]; cbn in K; [| discriminate].
  injection K as K. cbn. rewrite K. reflexivity.
Qed.

Section FwdErr.
Context {T : Type} `{TensorType T}.



End FwdErr.


Section UnusedExtra.
Context {T : Type} `{TensorType T}.

Lemma bw_frame_unused (g g' : Graph T) j : unused g j -> bw_frame g g' -> unused g' j.
Proof.
  intros U [L F] i n' Hn' Hf.
  assert (Hi : i < length g) by (rewrite <- L; apply nth_error_Some; congruence).
  destruct (nth_error g i) as [n|] eqn:Hn; [| apply nth_error_None in Hn; lia].
  destruct (F _ _ Hn) as [n'' [Hn'' [D [Fn V]]]]. rewrite Hn' in Hn''. injection Hn'' as <-.
  rewrite D. apply (U _ _ Hn). congruence.
Qed.

Lemma backward_node_keeps_unused (i j : nat) (g g' : Graph T) :
  wf_graph g -> unused g j -> backward_node i g = Ok g' ->
  option_map grad (nth_error g' j) = option_map grad (nth_error g j).
Proof.
  intros Hwf U E. unfold backward_node in E. inv_bind E. apply nth_res_ok in Ha.
  assert (Hi : i < length g) by (apply nth_error_Some; congruence).
  inv_bind E. inv_bind E.
  assert (K : deps a0 = deps a /\ grad a0 = grad a).
  { destruct (func a) eqn:Hf.
    - injection Ha0 as <-. auto.
    - inv_bind Ha0. inv_bind Ha0. injection Ha0 as <-. cbn. auto.
    - inv_bind Ha0. inv_bind Ha0. injection Ha0 as <-. cbn. auto. }
  destruct K as [Kd Kg].
  assert (Hd : forall d, d = fst (deps a0) \/ d = snd (deps a0) -> d = i \/ d <> j).
  { intros d Hdd. rewrite Kd in Hdd. specialize (Hwf _ _ Ha). unfold node_wf in Hwf.
    destruct (func a) eqn:Hf.
    - destruct Hwf as [Hdep _]. rewrite Hdep in Hdd. cbn in Hdd. left; lia.
    - right. destruct (U _ _ Ha) as [U1 U2]; [congruence |]. destruct Hdd; congruence.
    - right. destruct (U _ _ Ha) as [U1 U2]; [congruence |]. destruct Hdd; congruence. }
  assert (Step : forall d w g1 g2, d = fst (deps a0) \/ d = snd (deps a0) ->
            propagate i d w g1 = Ok g2 ->
            option_map grad (nth_error g2 j) = option_map grad (nth_error g1 j)).
  { intros d w g1 g2 Hdd P. destruct (Hd d Hdd) as [-> | Hdt].
    - apply propagate_self in P. subst g2. reflexivity.
    - rewrite (propagate_other _ _ _ _ _ _ P) by congruence. reflexivity. }
  rewrite (Step _ _ _ _ (or_intror eq_refl) E), (Step _ _ _ _ (or_introl eq_refl) Ha1).
  destruct (Nat.eq_dec i j) as [-> | Hij].
  - rewrite nth_error_upd_eq by exact Hi. rewrite Ha. cbn. rewrite Kg. reflexivity.
  - rewrite nth_error_upd_neq by exact Hij. reflexivity.
Qed.

Lemma run_backward_keeps_unused (l : list nat) (j : nat) (g g' : Graph T) :
  wf_graph g -> unused g j -> run backward_node l g = Ok g' ->
  option_map grad (nth_error g' j) = option_map grad (nth_error g j).
Proof.
  revert g. induction l as [|i l IH]; intros g Hwf U E; cbn in E.
  - congruence.
  - inv_bind E. pose proof (backward_node_frame _ _ _ Ha) as Fr.
    rewrite (IH a); [| exact (bw_frame_wf _ _ Hwf Fr) | exact (bw_frame_unused _ _ _ U Fr) | exact E].
    exact (backward_node_keeps_unused _ _ _ _ Hwf U Ha).
Qed.

End UnusedExtra.

(** [backward] never changes the gradient of a node other than the target
    that no operation node depends on. *)
Theorem backward_skips_unused_nodes {T : Type} `{TensorType T} (t j : nat) (s : T) (g g' : Graph T) :
  wf_graph g -> j <> t -> unused g j -> backward t s g = Ok g' ->
  option_map grad (nth_error g' j) = option_map grad (nth_error g j).
Proof.
  intros Hwf Hjt U E. unfold backward in E. inv_bind E. apply nth_res_ok in Ha.
  set (g0 := upd g t (set_grad a (Some s))) in E.
  assert (Fr : bw_frame g g0) by (apply (bw_frame_upd _ _ a); auto).
  rewrite (run_backward_keeps_unused _ _ _ _ (bw_frame_wf _ _ Hwf Fr) (bw_frame_unused _ _ _ U Fr) E).
  unfold g0. rewrite nth_error_upd_neq by congruence. reflexivity.
Qed.

(** ** Instances of the further theorems at concrete inputs *)


Lemma built_graph_U : built graph_U.
Proof. unfold graph_U. apply built_tensor. exact built_graph_A. Qed.


Lemma pass_past_end_fails_witness :
  length graph_A <= 4 /\ backward 4 (vec [1; 1]%R) graph_A = Err IndexOutOfBounds.
Proof.
  split; [simpl; lia |].
  refine (proj2 (pass_past_end_fails 4 (vec [1; 1]%R) graph_A _)). simpl. lia.
Defined.

Lemma forward_computes_values_witness :
  exists g' n, forward 3 graph_A = Ok g' /\ nth_error g' 3 = Some n /\
  match func n with
  | FNone => nth_error graph_A 3 = Some n
  | One f => exists vl v, dep_value g' 3 (fst (deps n)) = Ok vl /\ value n = Some v /\
                          one_forward f vl = Ok (f, v)
  | Two f => exists vl vr v, dep_value g' 3 (fst (deps n)) = Ok vl /\
                             dep_value g' 3 (snd (deps n)) = Ok vr /\ value n = Some v /\
                             two_forward f vl vr = Ok (f, v)
  end.
Proof.
  do 2 eexists. split; [reflexivity |]. split; [reflexivity |].
  apply (forward_computes_values 3 graph_A).
  - apply built_wf. exact built_graph_A.
  - reflexivity.
  - lia.
  - reflexivity.
Defined.

Lemma forward_compose_witness :
  exists g1, forward 2 graph_A = Ok g1 /\ forward 3 g1 = forward 3 graph_A.
Proof.
  eexists. split; [reflexivity |].
  apply (forward_compose 2 3 graph_A).
  - apply built_wf. exact built_graph_A.
  - lia.
  - reflexivity.
Defined.

Lemma backward_frame_witness :
  exists g', backward 3 (vec [1; 1]%R) graph_A = Ok g' /\ length g' = length graph_A.
Proof.
  eexists. split; [reflexivity |].
  refine (proj1 (backward_frame 3 (vec [1; 1]%R) graph_A _ _)). reflexivity.
Defined.

Lemma mul_program_grads_witness :
  shape (vec [1; 2]%R) = shape (vec [3; 4]%R) /\ shape (vec [3; 4]%R) = shape (vec [1; 1]%R) /\
  snd (mul_program (vec [1; 2]%R) (vec [3; 4]%R) (vec [1; 1]%R) []) =
  Ok (mkArray [2] (map2 Rmult [1; 2] [3; 4])%R,
      mkArray [2] (map2 Rmult [3; 4] [1; 1])%R,
      mkArray [2] (map2 Rmult [1; 2] [1; 1])%R).
Proof.
  split; [reflexivity | split; [reflexivity |]].
  apply (mul_program_grads (vec [1; 2]%R) (vec [3; 4]%R) (vec [1; 1]%R)); reflexivity.
Defined.

Lemma self_operand_grads_witness :
  shape (vec [3]%R) = shape (vec [1]%R) /\
  snd (self_op_program tensor_mul (vec [3]%R) (vec [1]%R) []) =
    Ok (mkArray [1] (map2 Rmult [3] [3])%R,
        mkArray [1] (map2 Rplus (map2 Rmult [3] [1]) (map2 Rmult [3] [1]))%R).
Proof.
  split; [reflexivity |].
  exact (proj1 (self_operand_grads (vec [3]%R) (vec [1]%R) eq_refl)).
Defined.

Lemma backward_last_grad_is_seed_witness :
  exists g', backward 3 (vec [1; 1]%R) graph_A = Ok g' /\ node_grad g' 3 = Ok (get_value_cpu (vec [1; 1]%R)).
Proof.
  eexists. split; [reflexivity |].
  apply (backward_last_grad_is_seed 3 (vec [1; 1]%R) graph_A).
  - apply built_wf. exact built_graph_A.
  - reflexivity.
  - reflexivity.
Defined.


Lemma unused_graph_U : unused graph_U 4.
Proof.
  intros i n Hn Hf.
  destruct i as [|[|[|[|[|i]]]]]; cbn in Hn; try (injection Hn as <-; cbn in *);
    try (split; discriminate); try congruence.
  destruct i; discriminate.
Qed.

Lemma backward_skips_unused_nodes_witness :
  exists g', backward 3 (vec [1; 1]%R) graph_U = Ok g' /\
    option_map grad (nth_error g' 4) = option_map grad (nth_error graph_U 4).
Proof.
  eexists. split; [reflexivity |].
  apply (backward_skips_unused_nodes 3 4 (vec [1; 1]%R) graph_U).
  - apply built_wf. exact built_graph_U.
  - lia.
  - exact unused_graph_U.
  - reflexivity.
Defined.
